(** * matrix-bun: the rain engine of [index.ts], embedded and verified

    The development follows [index.ts] top to bottom: the numeric
    primitives of the host language, the Mulberry32 generator, the
    gradient table, the drop model, the render pass, the resize and
    signal handlers and the frame loop.

    Number model.  Every quantity that the program keeps integral
    (generator state, glyph indices, drop rows, terminal sizes, colour
    channels) is a [Z] with the 32-bit and 16-bit wrap-arounds written
    out.  The remaining numbers (generator outputs, speeds, clock
    readings, the gradient's normalised position) are exact rationals
    [Q]; the rounding of IEEE doubles is not modelled. *)

From Stdlib Require Import ZArith QArith Qround Lia Lqa String Ascii DecimalString.
From stdpp Require Import base list strings gmap.

Local Open Scope Z_scope.

(** ** Host-language integer conversions *)

Module JS.

(** [ToUint32]: the value modulo 2^32. *)
Definition to_uint32 (x : Z) : Z := x mod 4294967296.

(** [ToInt32]: the value modulo 2^32, read as a signed 32-bit integer. *)
Definition to_int32 (x : Z) : Z :=
  (x + 2147483648) mod 4294967296 - 2147483648.

(** [ToUint16], applied by a store into a [Uint16Array]. *)
Definition to_uint16 (x : Z) : Z := x mod 65536.

(** [x >>> n]: unsigned right shift. *)
Definition ushr (x n : Z) : Z := Z.shiftr (to_uint32 x) n.

(** [x ^ y] and [x | y] on 32-bit operands. *)
Definition xor32 (x y : Z) : Z := Z.lxor (to_int32 x) (to_int32 y).
Definition or32 (x y : Z) : Z := Z.lor (to_int32 x) (to_int32 y).

(** [Math.imul]. *)
Definition imul (x y : Z) : Z := to_int32 (to_uint32 x * to_uint32 y).

(** Truncation of a number towards zero, the first half of [q | 0]. *)
Definition trunc (q : Q) : Z := Z.quot (Qnum q) (Zpos (Qden q)).

(** [q | 0] on a number. *)
Definition or0 (q : Q) : Z := to_int32 (trunc q).

(** [Math.round]: the nearest integer, halves rounded up. *)
Definition round (q : Q) : Z := Qfloor (q + (1 # 2))%Q.


(** [v || d] on an optional number: [undefined] and [0] give [d]. *)
Definition or_default (v : option Z) (d : Z) : Z :=
  match v with
  | Some n => if n =? 0 then d else n
  | None => d
  end.

End JS.

(** ** Mulberry32 *)

(** [random] is either the closure returned by [mulberry32], which owns
    the 32-bit cell [a], or the host's [Math.random], seen as an
    external source read one value per call. *)
Inductive RandomFn : Type :=
| Seeded (a : Z)
| HostRandom (src : nat -> Q) (calls : nat).

(** One call of the closure: the new cell and the unsigned 32-bit
    numerator of the result. *)
Definition mulberry32_next (a : Z) : Z * Z :=
  let a := JS.to_int32 (a + 1831565813) in
  let t := JS.imul (JS.xor32 a (JS.ushr a 15)) (JS.or32 1 a) in
  let t := JS.xor32 (t + JS.imul (JS.xor32 t (JS.ushr t 7)) (JS.or32 61 t)) t in
  (a, JS.to_uint32 (JS.xor32 t (JS.ushr t 14))).

Definition mulberry32 (seed : Z) : RandomFn := Seeded (JS.to_int32 seed).

(** [random()]: the value returned and the generator afterwards. *)
Definition random (g : RandomFn) : Q * RandomFn :=
  match g with
  | Seeded a =>
      let '(a', u) := mulberry32_next a in
      (u # 4294967296, Seeded a')
  | HostRandom src k => (src k, HostRandom src (S k))
  end.

(** The module-level choice [args.seed !== undefined ? mulberry32(seed) : Math.random]. *)
Definition make_random (seed : option Z) (host : nat -> Q) : RandomFn :=
  match seed with
  | Some s => mulberry32 s
  | None => HostRandom host 0
  end.

(** The first [n] values of a generator. *)
Fixpoint outputs (n : nat) (g : RandomFn) : list Q :=
  match n with
  | O => []
  | S n => let '(r, g') := random g in r :: outputs n g'
  end.

(** ** A state monad over the generator *)

Definition Rand (A : Type) : Type := RandomFn -> A * RandomFn.

Definition ret {A} (a : A) : Rand A := fun g => (a, g).

Definition bind {A B} (c : Rand A) (k : A -> Rand B) : Rand B :=
  fun g => let '(a, g') := c g in k a g'.

Notation "'let*' x ':=' c 'in' k" := (bind c (fun x => k))
  (at level 10, x name, c at level 100, k at level 200).

(** Strict comparison of numbers, [a < b]. *)
Definition Qltb (a b : Q) : bool := negb (Qle_bool b a).

(** ** Terminal output *)

(** The pieces a write to the terminal is made of. *)
Inductive Tok : Type :=
| HIDE_CURSOR
| SHOW_CURSOR
| CLEAR_SCREEN
| RESET
| rgb (r g b : Z)
| moveTo (row col : Z)
| Glyph (k : option Z)
| Space.

Definition CHARS : list string :=
  ["ア"; "イ"; "ウ"; "エ"; "オ"; "カ"; "キ"; "ク"; "ケ"; "コ";
   "サ"; "シ"; "ス"; "セ"; "ソ"; "タ"; "チ"; "ツ"; "テ"; "ト";
   "ナ"; "ニ"; "ヌ"; "ネ"; "ノ"; "ハ"; "ヒ"; "フ"; "ヘ"; "ホ";
   "マ"; "ミ"; "ム"; "メ"; "モ"; "ヤ"; "ユ"; "ヨ"; "ラ"; "リ";
   "ル"; "レ"; "ロ"; "ワ"; "ヲ"; "ン";
   "0"; "1"; "2"; "3"; "4"; "5"; "6"; "7"; "8"; "9";
   "A"; "B"; "C"; "D"; "E"; "F"; "G"; "H"; "I"; "J"; "K"; "L"; "M";
   "N"; "O"; "P"; "Q"; "R"; "S"; "T"; "U"; "V"; "W"; "X"; "Y"; "Z"]%string.

Definition CHAR_LEN : Z := Z.of_nat (length CHARS).

Definition ESC : string := String (ascii_of_nat 27) "[".

Definition decimal (n : Z) : string :=
  NilZero.string_of_int (Z.to_int n).

(** The characters each piece stands for. *)
Definition tok_string (t : Tok) : string :=
  match t with
  | HIDE_CURSOR => ESC ++ "?25l"
  | SHOW_CURSOR => ESC ++ "?25h"
  | CLEAR_SCREEN => ESC ++ "2J"
  | RESET => ESC ++ "0m"
  | rgb r g b =>
      ESC ++ "38;2;" ++ decimal r ++ ";" ++ decimal g ++ ";" ++ decimal b ++ "m"
  | moveTo row col => ESC ++ decimal row ++ ";" ++ decimal col ++ "H"
  | Glyph (Some k) =>
      if (k <? 0)%Z then "undefined"
      else match CHARS !! Z.to_nat k with Some c => c | None => "undefined" end
  | Glyph None => "undefined"
  | Space => " "
  end%string.

Definition write_string (w : list Tok) : string :=
  fold_right (fun t s => (tok_string t ++ s)%string) EmptyString w.

(** ** The gradient table *)

Section Rain.

(** [TRAIL_LENGTH] and [TARGET_FPS], fixed when the module is loaded. *)
Variable TRAIL_LENGTH : Z.
Variable TARGET_FPS : Z.

(** Normalised position of trail offset [i].  For a trail of length 1
    the source divides zero by zero and obtains [NaN]; the quotient
    below is 0 there, and nothing is stated about that case. *)
Definition gradient_t (i : Z) : Q := (inject_Z i / inject_Z (TRAIL_LENGTH - 1))%Q.

Definition ease (t : Q) : Q := (t * t * (3 - 2 * t))%Q.

Definition red (i : Z) : Z := JS.round (255 * (1 - gradient_t i) ^ 3)%Q.
Definition green (i : Z) : Z := JS.round (255 - 180 * ease (gradient_t i))%Q.
Definition blue (i : Z) : Z := JS.round (255 * (1 - gradient_t i) ^ 4)%Q.

(** [COLORS[i]], for [0 <= i < TRAIL_LENGTH]. *)
Definition COLORS (i : Z) : Tok := rgb (red i) (green i) (blue i).

(** ** Drops *)

Record Drop : Type := mkDrop {
  y : Z;
  speed : Q;
  chars : list Z;
  nextUpdate : Q
}.

(** [randomChar()]. *)
Definition randomChar : Rand Z :=
  let* r := random in ret (JS.or0 (r * inject_Z CHAR_LEN)%Q).

(** The filling loop of [createDrop]: [n] glyph indices, in order,
    each stored through the 16-bit element type. *)
Fixpoint fresh_chars (n : nat) : Rand (list Z) :=
  match n with
  | O => ret []
  | S n =>
      let* c := randomChar in
      let* cs := fresh_chars n in
      ret (JS.to_uint16 c :: cs)
  end.

Definition createDrop (h : Z) (randomStart : bool) : Rand Drop :=
  let* cs := fresh_chars (Z.to_nat TRAIL_LENGTH) in
  let* y0 := (if randomStart
              then let* r := random in ret (- JS.or0 (r * inject_Z h)%Q)
              else ret (- TRAIL_LENGTH)) in
  let* r := random in
  ret {| y := y0; speed := ((3 # 10) + r * (7 # 10))%Q; chars := cs; nextUpdate := 0 |}.

(** [chars[i] = v] on a [Uint16Array]: a store outside the array is
    dropped, a stored value is reduced to 16 bits. *)
Definition store (cs : list Z) (i v : Z) : list Z :=
  if i <? 0 then cs else <[Z.to_nat i := JS.to_uint16 v]> cs.

(** ** One column of a render pass *)

Definition visible (h row : Z) : bool := (1 <=? row) && (row <=? h).

(** The erase-and-advance step, taken when the drop is due. *)
Definition advance (h : Z) (now : Q) (col : Z) (d : Drop) : Rand (Drop * list Tok) :=
  if Qle_bool (nextUpdate d) now then
    let eraseRow := JS.to_int32 (y d) - TRAIL_LENGTH in
    let erased := if visible h eraseRow then [moveTo eraseRow col; Space] else [] in
    let d1 := {| y := y d + 1; speed := speed d; chars := chars d;
                 nextUpdate := (now + 100 / speed d)%Q |} in
    let* r := random in
    if Qltb r (3 # 10) then
      let* slot := random in
      let* c := randomChar in
      ret ({| y := y d1; speed := speed d1;
              chars := store (chars d1) (JS.or0 (slot * inject_Z TRAIL_LENGTH)%Q) c;
              nextUpdate := nextUpdate d1 |}, erased)
    else ret (d1, erased)
  else ret (d, []).

(** The test that sends a drop back to the top. *)
Definition recycle_due (h : Z) (d : Drop) : bool := h <? y d - TRAIL_LENGTH.

Definition recycle (h : Z) (d : Drop) : Rand Drop :=
  if recycle_due h d then createDrop h false else ret d.

(** The drawing loop over the trail offsets. *)
Fixpoint draw (h col : Z) (d : Drop) (offsets : list nat) : Rand (list Tok) :=
  match offsets with
  | [] => ret []
  | i :: offsets =>
      let row := JS.to_int32 (y d) - Z.of_nat i in
      if negb (visible h row) then draw h col d offsets
      else
        let char := Glyph (chars d !! i) in
        let* cell :=
          (match i with
           | O => let* r := random in
                  if Qltb r (1 # 10) then ret [moveTo row col; rgb 255 255 255; char]
                  else ret [moveTo row col; COLORS 0; char]
           | _ => ret [moveTo row col; COLORS (Z.of_nat i); char]
           end) in
        let* rest := draw h col d offsets in
        ret (cell ++ rest)
  end.

(** The body of the column loop for column index [x]. *)
Definition render_column (h : Z) (now : Q) (x : nat) (d : Drop) : Rand (Drop * list Tok) :=
  let col := Z.of_nat x + 1 in
  let* a := advance h now col d in
  let* d2 := recycle h (fst a) in
  let* cells := draw h col d2 (seq 0 (Z.to_nat TRAIL_LENGTH)) in
  ret (d2, snd a ++ cells).


(** ** The engine *)

Record Engine : Type := mkEngine {
  width : Z;
  height : Z;
  drops : list Drop;
  lastFrame : Q;
  running : bool
}.

(** [new Array(n)] raises a [RangeError] unless [n] is a valid length. *)
Definition array_length_ok (n : Z) : bool := (0 <=? n) && (n <? 4294967296).

(** The filling loop of the constructor. *)
Fixpoint fresh_drops (h : Z) (n : nat) : Rand (list Drop) :=
  match n with
  | O => ret []
  | S n =>
      let* d := createDrop h true in
      let* ds := fresh_drops h n in
      ret (d :: ds)
  end.

(** [new MatrixRain()]; [None] when the allocation raises. *)
Definition construct (columns rows : option Z) : Rand (option Engine) :=
  let w := JS.or_default columns 80 in
  let h := JS.or_default rows 24 in
  if array_length_ok w then
    let* ds := fresh_drops h (Z.to_nat w) in
    ret (Some {| width := w; height := h; drops := ds; lastFrame := 0; running := true |})
  else ret None.

(** The column loop of [render]: reads [drops[x]], runs the body and
    leaves the resulting drop in slot [x].  [None] when a slot holds no
    drop, where the source raises a [TypeError]. *)
Fixpoint render_columns (h : Z) (now : Q) (xs : list nat) (ds : list Drop)
  : Rand (option (list Drop * list Tok)) :=
  match xs with
  | [] => ret (Some (ds, []))
  | x :: xs =>
      match ds !! x with
      | None => ret None
      | Some d =>
          let* r := render_column h now x d in
          let* rest := render_columns h now xs (<[x := fst r]> ds) in
          ret (match rest with
               | Some (ds', out) => Some (ds', snd r ++ out)
               | None => None
               end)
      end
  end.

(** [render(now)]: the engine afterwards and the single combined write. *)
Definition render (now : Q) (e : Engine) : Rand (option (Engine * list Tok)) :=
  let* r := render_columns (height e) now (seq 0 (Z.to_nat (width e))) (drops e) in
  ret (match r with
       | Some (ds, out) =>
           Some ({| width := width e; height := height e; drops := ds;
                    lastFrame := lastFrame e; running := running e |}, out)
       | None => None
       end).

(** The reallocation loop of the resize handler:
    [(x < oldDrops.length ? oldDrops[x] : null) ?? createDrop(true)]. *)
Fixpoint resized_drops (h : Z) (oldDrops : list Drop) (xs : list nat) : Rand (list Drop) :=
  match xs with
  | [] => ret []
  | x :: xs =>
      let* d := (match oldDrops !! x with
                 | Some d => ret d
                 | None => createDrop h true
                 end) in
      let* ds := resized_drops h oldDrops xs in
      ret (d :: ds)
  end.

(** The resize handler; [None] when the allocation raises. *)
Definition on_resize (columns rows : option Z) (e : Engine)
  : Rand (option (Engine * list Tok)) :=
  let newWidth := JS.or_default columns 80 in
  let newHeight := JS.or_default rows 24 in
  let* ds :=
    (if negb (newWidth =? width e) then
       if array_length_ok newWidth then
         let* ds := resized_drops (height e) (drops e) (seq 0 (Z.to_nat newWidth)) in
         ret (Some ds)
       else ret None
     else ret (Some (drops e))) in
  ret (match ds with
       | Some ds =>
           Some ({| width := newWidth; height := newHeight; drops := ds;
                    lastFrame := lastFrame e; running := running e |}, [CLEAR_SCREEN])
       | None => None
       end).

(** ** The process *)

Inductive Status : Type :=
| Alive
| Exited (code : Z)
| Crashed.

(** The engine, the generator, the writes and whether the process
    still runs.  No call of [Bun.write] is awaited.  A write started
    while the process goes on running completes while the loop sleeps:
    [stdout] lists those, oldest first.  A write started by a handler
    that calls [process.exit] right after has not completed when the
    process ends, and nothing in the program makes it complete: it
    stays in [pending].  [frames] belongs to the specification only:
    the clock readings at which [render] was called, oldest first. *)
Record Process : Type := mkProcess {
  engine : Engine;
  rng : RandomFn;
  stdout : list (list Tok);
  pending : list (list Tok);
  status : Status;
  frames : list Q
}.

Definition frameTime : Q := (1000 / inject_Z TARGET_FPS)%Q.

(** [stop()]: the flag is cleared, the write is started and, without
    waiting for it, the process exits with code 0. *)
Definition stop (p : Process) : Process :=
  let e := engine p in
  {| engine := {| width := width e; height := height e; drops := drops e;
                  lastFrame := lastFrame e; running := false |};
     rng := rng p;
     stdout := stdout p;
     pending := pending p ++ [[RESET; SHOW_CURSOR; CLEAR_SCREEN; moveTo 1 1]];
     status := Exited 0;
     frames := frames p |}.

Definition crash (p : Process) (g : RandomFn) : Process :=
  {| engine := engine p; rng := g; stdout := stdout p; pending := pending p;
     status := Crashed; frames := frames p |}.

(** One turn of the [while (this.running)] loop, with clock reading [now]. *)
Definition iteration (now : Q) (p : Process) : Process :=
  let e := engine p in
  if running e then
    if Qle_bool frameTime (now - lastFrame e) then
      match render now e (rng p) with
      | (Some (e', out), g) =>
          {| engine := {| width := width e'; height := height e'; drops := drops e';
                          lastFrame := now; running := running e' |};
             rng := g;
             stdout := stdout p ++ [out];
             pending := pending p;
             status := Alive;
             frames := frames p ++ [now] |}
      | (None, g) => crash p g
      end
    else p
  else p.

(** What reaches the process: a turn of the loop, or a handler run
    while the loop sleeps. *)
Inductive Event : Type :=
| Tick (now : Q)
| Resize (columns rows : option Z)
| SIGINT
| SIGTERM.

Definition handle_resize (columns rows : option Z) (p : Process) : Process :=
  match on_resize columns rows (engine p) (rng p) with
  | (Some (e, out), g) =>
      {| engine := e; rng := g; stdout := stdout p ++ [out]; pending := pending p;
         status := Alive; frames := frames p |}
  | (None, g) => crash p g
  end.

(** A process that has exited or crashed reacts to nothing. *)
Definition step (p : Process) (ev : Event) : Process :=
  match status p with
  | Alive =>
      match ev with
      | Tick now => iteration now p
      | Resize columns rows => handle_resize columns rows p
      | SIGINT | SIGTERM => stop p
      end
  | _ => p
  end.

Definition run_events (p : Process) (evs : list Event) : Process :=
  fold_left step evs p.

(** [new MatrixRain()] followed by the prologue of [run()]. *)
Definition launch (columns rows : option Z) (g : RandomFn) : option Process :=
  match construct columns rows g with
  | (Some e, g') =>
      Some {| engine := e; rng := g'; stdout := [[HIDE_CURSOR; CLEAR_SCREEN]];
              pending := []; status := Alive; frames := [] |}
  | (None, _) => None
  end.

End Rain.

(** ** Start-up *)

Record Args : Type := mkArgs {
  seed : option Z;
  fps : option Z;
  trail : option Z
}.

Definition trail_length (args : Args) : Z := JS.or_default (trail args) 20.
Definition target_fps (args : Args) : Z := JS.or_default (fps args) 30.

(** Loading the module from the point where the arguments have been
    read and help has not been asked for: the generator is chosen,
    [COLORS] is allocated (which raises on an invalid length), the
    engine is built and started.  [program], below, is the module from
    its first line. *)
Definition main (args : Args) (host : nat -> Q) (columns rows : option Z) : option Process :=
  let g := make_random (seed args) host in
  if array_length_ok (trail_length args)
  then launch (trail_length args) columns rows g
  else None.

(** A whole run: start-up, then the events in order. *)
Definition play (args : Args) (host : nat -> Q) (columns rows : option Z)
  (evs : list Event) : option Process :=
  match main args host columns rows with
  | Some p => Some (run_events (trail_length args) (target_fps args) p evs)
  | None => None
  end.

(** A generator honours the contract of [random] when each value it
    returns lies in [0, 1).  The closure of [mulberry32] does by
    construction; for the host's source this is its documented range. *)
Definition unit_source (g : RandomFn) : Prop :=
  match g with
  | Seeded _ => True
  | HostRandom src _ => forall k, (0 <= src k)%Q /\ (src k < 1)%Q
  end.

(** ** Command-line arguments *)

Inductive ArgType : Type :=
| TString
| TNumber
| TBoolean.

(** What a parsed argument or a default can be; a number is [None]
    when it is [NaN]. *)
Inductive Value : Type :=
| VString (s : string)
| VNumber (n : option Z)
| VBoolean (b : bool)
| VUndefined.

Record ArgDefinition : Type := mkArgDefinition {
  name : string;
  alias : option string;
  type : ArgType;
  default : Value;
  description : string
}.

(** [Map.prototype.set] on a map kept in insertion order: an existing
    key keeps its place and takes the new value, a new key goes last. *)
Fixpoint Map_set {V : Type} (k : string) (v : V) (m : list (string * V)) : list (string * V) :=
  match m with
  | [] => [(k, v)]
  | (k', v') :: m' => if String.eqb k' k then (k, v) :: m' else (k', v') :: Map_set k v m'
  end.

(** [Map.prototype.get]. *)
Fixpoint Map_get {V : Type} (k : string) (m : list (string * V)) : option V :=
  match m with
  | [] => None
  | (k', v) :: m' => if String.eqb k' k then Some v else Map_get k m'
  end.

Record ArgParser : Type := mkArgParser {
  definitions : list (string * ArgDefinition);
  aliases : list (string * string)
}.

(** [define(def)]; an absent or empty alias registers nothing. *)
Definition define (def : ArgDefinition) (p : ArgParser) : ArgParser :=
  {| definitions := Map_set (name def) def (definitions p);
     aliases := match alias def with
                | Some a => if String.eqb a "" then aliases p
                            else Map_set a (name def) (aliases p)
                | None => aliases p
                end |}.

(** The own properties of the result object.  Strings are sequences of
    bytes, which split at the first ["="] and compare exactly as the
    source's do; a definition named [__proto__] is not modelled. *)
Abbreviation ParsedArgs := (gmap string Value).

(** The first loop of [parse]: every default that is not [undefined]. *)
Definition set_defaults (defs : list (string * ArgDefinition)) : ParsedArgs :=
  fold_left (fun (r : ParsedArgs) (nd : string * ArgDefinition) =>
               match default (snd nd) with
               | VUndefined => r
               | v => <[fst nd := v]> r
               end) defs ∅.

(** [arg.indexOf("=")] and the two slices. *)
Definition split_arg (arg : string) : string * option string :=
  match String.index 0 "=" arg with
  | Some eqIdx =>
      (String.substring 0 eqIdx arg,
       Some (String.substring (eqIdx + 1) (String.length arg - (eqIdx + 1)) arg))
  | None => (arg, None)
  end.

(** [key.replace(/^-{1,2}/, "")]: one or two leading dashes go. *)
Definition strip_dashes (key : string) : string :=
  match key with
  | String "-" (String "-" rest) => rest
  | String "-" rest => rest
  | _ => key
  end.

(** [aliases.get(key) ?? key]. *)
Definition resolve_key (p : ArgParser) (key : string) : string :=
  match Map_get key (aliases p) with
  | Some n => n
  | None => key
  end.

Section Parse.

(** [parseInt(value, 10)], a function of the host: [None] is [NaN],
    and a result is an integer of this model (one a number holds
    exactly). *)
Variable parseInt : string -> option Z.

(** The body of the loop over [argv]. *)
Definition parse_arg (p : ArgParser) (result : ParsedArgs) (arg : string) : ParsedArgs :=
  let key := strip_dashes (fst (split_arg arg)) in
  let value := snd (split_arg arg) in
  let resolvedKey := resolve_key p key in
  match Map_get resolvedKey (definitions p) with
  | None => result
  | Some def =>
      match type def with
      | TBoolean =>
          <[resolvedKey := VBoolean (match value with
                                     | None => true
                                     | Some v => String.eqb v "true"
                                     end)]> result
      | TNumber =>
          <[resolvedKey := match value with
                           | Some v => VNumber (parseInt v)
                           | None => default def
                           end]> result
      | TString =>
          <[resolvedKey := match value with
                           | Some v => VString v
                           | None => default def
                           end]> result
      end
  end.

Definition parse (p : ArgParser) (argv : list string) : ParsedArgs :=
  fold_left (parse_arg p) argv (set_defaults (definitions p)).

End Parse.

(** The parser of the program. *)
Definition parser : ArgParser :=
  define {| name := "help"; alias := Some "h"; type := TBoolean;
            default := VBoolean false; description := "Show this help message" |}
    (define {| name := "trail"; alias := Some "t"; type := TNumber;
               default := VNumber (Some 20); description := "Trail length" |}
       (define {| name := "fps"; alias := Some "f"; type := TNumber;
                  default := VNumber (Some 30);
                  description := "Target frames per second" |}
          (define {| name := "seed"; alias := Some "s"; type := TNumber;
                     default := VUndefined;
                     description := "Seed for reproducible randomness" |}
             {| definitions := []; aliases := [] |}))).

(** A parsed entry read as a number: [Some None] is [NaN]. *)
Definition as_number (v : option Value) : option (option Z) :=
  match v with
  | Some (VNumber n) => Some n
  | _ => None
  end.

(** How the program reads its arguments: [args.seed !== undefined]
    selects the seeded generator, and a [NaN] seed becomes 0 under
    [seed | 0]; [args.fps || 30] and [args.trail || 20] treat [NaN]
    like a missing value. *)
Definition args_of (r : ParsedArgs) : Args :=
  {| seed := match as_number (r !! "seed") with
             | Some (Some s) => Some s
             | Some None => Some 0
             | None => None
             end;
     fps := match as_number (r !! "fps") with Some n => n | None => None end;
     trail := match as_number (r !! "trail") with Some n => n | None => None end |}.

(** Truthiness of a parsed entry, as [if (...)] tests it. *)
Definition truthy (v : option Value) : bool :=
  match v with
  | Some (VString s) => negb (String.eqb s "")
  | Some (VNumber (Some n)) => negb (n =? 0)
  | Some (VNumber None) => false
  | Some (VBoolean b) => b
  | Some VUndefined => false
  | None => false
  end.

(** The test of [if (args.help)]. *)
Definition wants_help (r : ParsedArgs) : bool := truthy (r !! "help").

(** How loading the module ends: the help text is handed to
    [Bun.write] and the process exits with code 0; or an allocation
    raises; or the engine runs. *)
Inductive Outcome : Type :=
| HelpExit (code : Z)
| LoadFailed
| Started (p : Process).

(** The module from its first line: the arguments are parsed, a true
    [help] flag ends the process there, and only otherwise is the rest
    of the module loaded. *)
Definition program (parseInt : string -> option Z) (argv : list string)
  (host : nat -> Q) (columns rows : option Z) : Outcome :=
  let args := parse parseInt parser argv in
  if wants_help args then HelpExit 0
  else match main (args_of args) host columns rows with
       | Some p => Started p
       | None => LoadFailed
       end.

(** ** Vocabulary of the statements *)

(** Consecutive entries of [ts] are at least [gap] apart. *)
Definition spaced (gap : Q) (ts : list Q) : Prop :=
  forall (i : nat) (t1 t2 : Q),
    ts !! i = Some t1 -> ts !! S i = Some t2 -> (gap <= t2 - t1)%Q.

(** What the loop maintains: the recorded frames are spaced by the
    frame time, and [lastFrame] is the latest of them. *)
Definition paced (F : Z) (p : Process) : Prop :=
  spaced (frameTime F) (frames p)
  /\ forall t, last (frames p) = Some t -> lastFrame (engine p) = t.

(** The write made by [stop()]. *)
Definition cleanup : list Tok := [RESET; SHOW_CURSOR; CLEAR_SCREEN; moveTo 1 1].

Definition is_show_cursor (t : Tok) : bool :=
  match t with SHOW_CURSOR => true | _ => false end.

(** A write that turns the cursor back on. *)
Definition shows_cursor (w : list Tok) : bool := existsb is_show_cursor w.

(** How many writes of a trace turn the cursor back on. *)
Definition count_cleanups (ws : list (list Tok)) : nat :=
  length (List.filter shows_cursor ws).

(** While the process is alive the cursor has not been turned back on
    and no write is left waiting. *)
Definition unstopped (p : Process) : Prop :=
  status p = Alive -> count_cleanups (stdout p) = 0%nat /\ pending p = [].

(** What the terminal has received once the process is gone: the
    completed writes, and the pending ones only if the host happened to
    complete them before the process ended. *)
Definition terminal (completed : bool) (p : Process) : list (list Tok) :=
  stdout p ++ (if completed then pending p else []).

(** The drop array has one slot per column. *)
Definition well_formed (p : Process) : Prop :=
  length (drops (engine p)) = Z.to_nat (width (engine p)).

(** Events other than signals, with a terminal width that is a valid
    array length. *)
Definition benign (ev : Event) : Prop :=
  match ev with
  | Tick _ => True
  | Resize columns _ => 0 <= JS.or_default columns 80 < 4294967296
  | SIGINT | SIGTERM => False
  end.

(** The generator after [n] calls. *)
Fixpoint skip (n : nat) (g : RandomFn) : RandomFn :=
  match n with
  | O => g
  | S n => skip n (snd (random g))
  end.

(** What every drop satisfies: a glyph buffer of the trail's length
    holding alphabet indices, and a speed in [0.3, 1). *)
Definition drop_ok (L : Z) (d : Drop) : Prop :=
  length (chars d) = Z.to_nat L
  /\ Forall (fun c => 0 <= c < CHAR_LEN) (chars d)
  /\ ((3 # 10) <= speed d)%Q /\ (speed d < 1)%Q.

(** One drop per column, each a proper drop, and a generator within
    its range. *)
Definition healthy (L : Z) (p : Process) : Prop :=
  well_formed p /\ Forall (drop_ok L) (drops (engine p)) /\ unit_source (rng p).

(** A piece of a frame: a cursor move onto the [w] by [h] screen, a
    colour, a glyph of the alphabet or a blank. *)
Definition frame_tok (w h : Z) (t : Tok) : Prop :=
  match t with
  | moveTo row col => 1 <= row <= h /\ 1 <= col <= w
  | rgb r g b => True
  | Glyph (Some k) => 0 <= k < CHAR_LEN
  | Space => True
  | _ => False
  end.

Definition is_moveTo (t : Tok) : bool :=
  match t with moveTo _ _ => true | _ => false end.

Definition is_hide_cursor (t : Tok) : bool :=
  match t with HIDE_CURSOR => true | _ => false end.

(** A host whose random source stays in [0, 1). *)
Definition unit_host (host : nat -> Q) : Prop :=
  forall k, (0 <= host k)%Q /\ (host k < 1)%Q.

(** A piece only a frame is made of. *)
Definition is_cell (t : Tok) : bool :=
  match t with
  | moveTo _ _ | rgb _ _ _ | Glyph _ | Space => true
  | _ => false
  end.


(** The option an argument names, once its dashes are stripped and its
    alias resolved. *)
Definition arg_key (p : ArgParser) (arg : string) : string :=
  resolve_key p (strip_dashes (fst (split_arg arg))).

(** The short and long spellings of the program's options, and the
    dashes an argument may carry. *)
Definition option_names : list (string * string) :=
  [("s", "seed"); ("f", "fps"); ("t", "trail"); ("h", "help")]%string.

Definition dash_prefixes : list string := [""; "-"; "--"]%string.

(** The value an argument gives to the option [def] it names. *)
Definition arg_value (parseInt : string -> option Z) (def : ArgDefinition)
  (value : option string) : Value :=
  match type def with
  | TBoolean => VBoolean (match value with
                          | None => true
                          | Some v => String.eqb v "true"
                          end)
  | TNumber => match value with
               | Some v => VNumber (parseInt v)
               | None => default def
               end
  | TString => match value with
               | Some v => VString v
               | None => default def
               end
  end.

(** What the program's casts rely on: [fps] and [trail] hold numbers,
    [help] a boolean, [seed] a number when it holds anything, and there
    is no other key. *)
Definition well_typed (r : ParsedArgs) : Prop :=
  (r !! "seed"%string = None \/ r !! "seed"%string = Some VUndefined
   \/ exists n, r !! "seed"%string = Some (VNumber n))
  /\ (exists n, r !! "fps"%string = Some (VNumber n))
  /\ (exists n, r !! "trail"%string = Some (VNumber n))
  /\ (exists b, r !! "help"%string = Some (VBoolean b))
  /\ forall k : string,
       k <> "seed"%string -> k <> "fps"%string -> k <> "trail"%string ->
       k <> "help"%string -> r !! k = None.

(** ** Sample states *)

(** A drop about to leave a screen of 24 rows. *)
Definition sample_drop : Drop :=
  {| y := 23; speed := 1 # 2; chars := [1; 2; 3]; nextUpdate := 0 |}.

(** One column, five rows, the drop at row 8. *)
Definition sample_engine : Engine :=
  {| width := 1; height := 5;
     drops := [{| y := 8; speed := 1 # 2; chars := [1; 2; 3]; nextUpdate := 0 |}];
     lastFrame := 0; running := true |}.

(** Three columns. *)
Definition wide_engine : Engine :=
  {| width := 3; height := 5;
     drops := [{| y := 8; speed := 1 # 2; chars := [1; 2; 3]; nextUpdate := 0 |};
               {| y := -1; speed := 3 # 4; chars := [4; 5; 6]; nextUpdate := 7 |};
               {| y := 2; speed := 2 # 5; chars := [7; 8; 9]; nextUpdate := 9 |}];
     lastFrame := 0; running := true |}.

(** A stand-in for the host's [parseInt] in examples: an optional sign
    followed by decimal digits, read up to the first other character;
    [NaN] when there is no digit. *)
Fixpoint digits_value (acc : Z) (seen : bool) (s : string) : option Z :=
  match s with
  | String c rest =>
      let n := Z.of_nat (nat_of_ascii c) - 48 in
      if (0 <=? n) && (n <=? 9) then digits_value (10 * acc + n) true rest
      else if seen then Some acc else None
  | EmptyString => if seen then Some acc else None
  end.

Definition sample_parseInt (s : string) : option Z :=
  match s with
  | String "-" rest => option_map Z.opp (digits_value 0 false rest)
  | String "+" rest => digits_value 0 false rest
  | _ => digits_value 0 false s
  end.

(** * Properties *)

(** ** Integer conversions *)

Lemma to_int32_range x : -2147483648 <= JS.to_int32 x < 2147483648.
Proof.
  unfold JS.to_int32.
  pose proof (Z.mod_pos_bound (x + 2147483648) 4294967296 ltac:(lia)). lia.
Qed.

Lemma to_int32_small x : -2147483648 <= x < 2147483648 -> JS.to_int32 x = x.
Proof.
  intros Hx. unfold JS.to_int32. rewrite Z.mod_small by lia. lia.
Qed.


Lemma to_int32_idem_add x c : JS.to_int32 (JS.to_int32 x + c) = JS.to_int32 (x + c).
Proof.
  unfold JS.to_int32. f_equal.
  replace ((x + 2147483648) mod 4294967296 - 2147483648 + c + 2147483648)
    with ((x + 2147483648) mod 4294967296 + c) by lia.
  replace (x + c + 2147483648) with ((x + 2147483648) + c) by lia.
  now rewrite Zplus_mod_idemp_l.
Qed.

Lemma to_int32_eq_iff x y :
  JS.to_int32 x = JS.to_int32 y <-> (x - y) mod 4294967296 = 0.
Proof.
  unfold JS.to_int32. split; intros H.
  - assert (E : (x + 2147483648) mod 4294967296 = (y + 2147483648) mod 4294967296) by lia.
    replace (x - y) with ((x + 2147483648) - (y + 2147483648)) by lia.
    rewrite Zminus_mod, E, Z.sub_diag. reflexivity.
  - f_equal.
    replace (x + 2147483648) with ((y + 2147483648) + (x - y)) by lia.
    rewrite Zplus_mod, H, Z.add_0_r. apply Z.mod_mod. lia.
Qed.


Lemma to_uint32_range x : 0 <= JS.to_uint32 x < 4294967296.
Proof. unfold JS.to_uint32. apply Z.mod_pos_bound. lia. Qed.

Lemma trunc_floor q : (0 <= q)%Q -> JS.trunc q = Qfloor q.
Proof.
  destruct q as [n d]. unfold Qle, JS.trunc, Qfloor. simpl. intros Hn.
  apply Z.quot_div_nonneg; lia.
Qed.

Lemma or0_floor q : (0 <= q)%Q -> Qfloor q < 2147483648 -> JS.or0 q = Qfloor q.
Proof.
  intros Hq Hlt. unfold JS.or0. rewrite trunc_floor by exact Hq.
  apply to_int32_small. split; [|exact Hlt].
  assert (0 <= Qfloor q); [|lia].
  change 0 with (Qfloor 0). now apply Qfloor_resp_le.
Qed.

(** [floor (r * n)] for [r] in [0, 1) and a positive [n] is an index below [n]. *)
Lemma floor_scale r n :
  (0 <= r)%Q -> (r < 1)%Q -> 0 < n -> 0 <= Qfloor (r * inject_Z n) < n.
Proof.
  intros H0 H1 Hn. split.
  - change 0 with (Qfloor 0). apply Qfloor_resp_le.
    apply Qmult_le_0_compat; [exact H0|]. change 0%Q with (inject_Z 0).
    rewrite <- Zle_Qle. lia.
  - apply Z.lt_nge. intros Hge.
    assert (Hle : (inject_Z n <= r * inject_Z n)%Q).
    { eapply Qle_trans; [|apply Qfloor_le]. rewrite <- Zle_Qle. exact Hge. }
    assert (Hpos : (0 < inject_Z n)%Q).
    { change 0%Q with (inject_Z 0). rewrite <- Zlt_Qlt. exact Hn. }
    assert (Hlt : (r * inject_Z n < 1 * inject_Z n)%Q).
    { apply Qmult_lt_compat_r; assumption. }
    rewrite Qmult_1_l in Hlt.
    exact (Qlt_irrefl _ (Qle_lt_trans _ _ _ Hle Hlt)).
Qed.

(** ** The generator *)

Lemma seeded_unit a :
  (0 <= fst (random (Seeded a)))%Q /\ (fst (random (Seeded a)) < 1)%Q.
Proof.
  unfold random. destruct (mulberry32_next a) as [a' u] eqn:E. simpl.
  assert (Hu : 0 <= u < 4294967296).
  { unfold mulberry32_next in E. injection E as _ <-. apply to_uint32_range. }
  unfold Qle, Qlt. simpl. lia.
Qed.

Lemma random_unit g :
  unit_source g ->
  (0 <= fst (random g))%Q /\ (fst (random g) < 1)%Q /\ unit_source (snd (random g)).
Proof.
  destruct g as [a|src k]; intros Hg.
  - destruct (seeded_unit a) as [H0 H1]. split; [exact H0|]. split; [exact H1|].
    unfold random. now destruct (mulberry32_next a).
  - simpl. destruct (Hg k) as [H0 H1]. split; [exact H0|]. split; [exact H1|exact Hg].
Qed.

(** The first values for seed 42: 0.6011037519201636,
    0.44829055899754167 and 0.8524657934904099. *)
Example mulberry32_seed_42 :
  outputs 3 (mulberry32 42)
  = [2581720956 # 4294967296; 1925393290 # 4294967296; 3661312704 # 4294967296].
Proof. vm_compute. reflexivity. Qed.

Lemma outputs_seeded_unit n : forall a,
  Forall (fun r => (0 <= r)%Q /\ (r < 1)%Q) (outputs n (Seeded a)).
Proof.
  induction n as [|n IH]; intros a; [constructor|].
  pose proof (seeded_unit a) as Hr.
  cbn [outputs]. unfold random in *.
  destruct (mulberry32_next a) as [a' u]. constructor; [exact Hr|apply IH].
Qed.

(** C1.  With a seed, a run never consults the host's random source:
    two runs from the same seed, trail length, frame rate, terminal
    size and event sequence (with its clock readings) agree on every
    generator output and on the whole process state (drops with their
    positions, speeds and glyph buffers, and every write) whatever the
    host would have supplied; and every output of the seeded generator
    lies in [0, 1). *)
Theorem seeded_runs_deterministic
  (s : Z) (fps0 trail0 columns rows : option Z) (host1 host2 : nat -> Q)
  (evs : list Event) (n : nat) :
  outputs n (make_random (Some s) host1) = outputs n (make_random (Some s) host2)
  /\ play (mkArgs (Some s) fps0 trail0) host1 columns rows evs
     = play (mkArgs (Some s) fps0 trail0) host2 columns rows evs
  /\ Forall (fun r => (0 <= r)%Q /\ (r < 1)%Q) (outputs n (mulberry32 s)).
Proof.
  split; [reflexivity|]. split; [reflexivity|].
  apply outputs_seeded_unit.
Qed.




(** ** The gradient table *)

Lemma cube_eq (x : Q) : (x ^ 3 == x * x * x)%Q.
Proof. simpl. ring. Qed.
Lemma fourth_eq (x : Q) : (x ^ 4 == x * x * x * x)%Q.
Proof. simpl. ring. Qed.

Lemma gradient_t_unit L i : 2 <= L -> 0 <= i < L ->
  (0 <= gradient_t L i)%Q /\ (gradient_t L i <= 1)%Q.
Proof.
  intros HL Hi. unfold gradient_t.
  assert (Hd : (0 < inject_Z (L - 1))%Q).
  { change 0%Q with (inject_Z 0). rewrite <- Zlt_Qlt. lia. }
  split.
  - apply Qle_shift_div_l; [exact Hd|]. rewrite Qmult_0_l.
    change 0%Q with (inject_Z 0). rewrite <- Zle_Qle. lia.
  - apply Qle_shift_div_r; [exact Hd|]. rewrite Qmult_1_l.
    rewrite <- Zle_Qle. lia.
Qed.

Lemma gradient_t_mono L i j : 2 <= L -> i <= j ->
  (gradient_t L i <= gradient_t L j)%Q.
Proof.
  intros HL Hij. unfold gradient_t, Qdiv.
  apply Qmult_le_compat_r.
  - rewrite <- Zle_Qle. exact Hij.
  - apply Qinv_le_0_compat. change 0%Q with (inject_Z 0). rewrite <- Zle_Qle. lia.
Qed.

Lemma round_byte q : (0 <= q)%Q -> (q <= 255)%Q -> 0 <= JS.round q <= 255.
Proof.
  intros H0 H1. unfold JS.round. split.
  - change 0 with (Qfloor (1 # 2)). apply Qfloor_resp_le. lra.
  - change 255 with (Qfloor (255 + (1 # 2))). apply Qfloor_resp_le. lra.
Qed.

Lemma round_mono p q : (p <= q)%Q -> JS.round p <= JS.round q.
Proof. intros H. unfold JS.round. apply Qfloor_resp_le. lra. Qed.

Lemma cube_unit u : (0 <= u)%Q -> (u <= 1)%Q -> (0 <= 255 * u ^ 3)%Q /\ (255 * u ^ 3 <= 255)%Q.
Proof.
  intros H0 H1. rewrite cube_eq.
  assert (0 <= u * u)%Q by nra. assert (u * u <= 1)%Q by nra.
  assert (0 <= u * u * u)%Q by nra. assert (u * u * u <= 1)%Q by nra.
  split; lra.
Qed.

Lemma fourth_unit u : (0 <= u)%Q -> (u <= 1)%Q -> (0 <= 255 * u ^ 4)%Q /\ (255 * u ^ 4 <= 255)%Q.
Proof.
  intros H0 H1. rewrite fourth_eq.
  assert (0 <= u * u)%Q by nra. assert (u * u <= 1)%Q by nra.
  assert (0 <= u * u * u)%Q by nra. assert (u * u * u <= 1)%Q by nra.
  assert (0 <= u * u * u * u)%Q by nra. assert (u * u * u * u <= 1)%Q by nra.
  split; lra.
Qed.

Lemma ease_unit t : (0 <= t)%Q -> (t <= 1)%Q -> (0 <= ease t)%Q /\ (ease t <= 1)%Q.
Proof.
  intros H0 H1. unfold ease.
  assert (0 <= t * t)%Q by nra.
  split.
  - assert (0 <= (t * t) * (3 - 2 * t))%Q by (apply Qmult_le_0_compat; lra). lra.
  - assert (0 <= ((1 - t) * (1 - t)) * (1 + 2 * t))%Q.
    { apply Qmult_le_0_compat; [|lra]. nra. }
    lra.
Qed.

Lemma cube_mono a b : (0 <= a)%Q -> (a <= b)%Q -> (255 * a ^ 3 <= 255 * b ^ 3)%Q.
Proof.
  intros H0 Hab. rewrite !cube_eq.
  assert (a * a <= b * b)%Q by nra.
  assert (0 <= a * a)%Q by nra.
  assert (a * a * a <= b * b * b)%Q by nra.
  lra.
Qed.

Lemma fourth_mono a b : (0 <= a)%Q -> (a <= b)%Q -> (255 * a ^ 4 <= 255 * b ^ 4)%Q.
Proof.
  intros H0 Hab. rewrite !fourth_eq.
  assert (a * a <= b * b)%Q by nra.
  assert (0 <= a * a)%Q by nra.
  assert (a * a * a <= b * b * b)%Q by nra.
  assert (0 <= a * a * a)%Q by nra.
  assert (a * a * a * a <= b * b * b * b)%Q by nra.
  lra.
Qed.

Lemma gradient_t_head L : (gradient_t L 0 == 0)%Q.
Proof. unfold gradient_t, Qdiv. change (inject_Z 0) with 0%Q. ring. Qed.

(** C2.  For a trail of at least two cells and an offset [i] inside it,
    with [t = i / (TRAIL_LENGTH - 1)], entry [i] of the table is the
    colour whose channels are [255 (1-t)^3], [255 - 180 t^2 (3 - 2t)] and
    [255 (1-t)^4], each rounded to the nearest integer, and each channel
    lies in [0, 255]. *)
Theorem gradient_channels (L i : Z) :
  2 <= L -> 0 <= i < L ->
  let t := (inject_Z i / inject_Z (L - 1))%Q in
  COLORS L i = rgb (Qfloor (255 * (1 - t) ^ 3 + (1 # 2))%Q)
                   (Qfloor (255 - 180 * (t * t * (3 - 2 * t)) + (1 # 2))%Q)
                   (Qfloor (255 * (1 - t) ^ 4 + (1 # 2))%Q)
  /\ 0 <= red L i <= 255
  /\ 0 <= green L i <= 255
  /\ 0 <= blue L i <= 255.
Proof.
  intros HL Hi t. split; [reflexivity|].
  destruct (gradient_t_unit L i HL Hi) as [H0 H1].
  assert (Hu0 : (0 <= 1 - gradient_t L i)%Q) by lra.
  assert (Hu1 : (1 - gradient_t L i <= 1)%Q) by lra.
  split; [|split].
  - unfold red. destruct (cube_unit _ Hu0 Hu1). now apply round_byte.
  - unfold green. destruct (ease_unit _ H0 H1). apply round_byte; lra.
  - unfold blue. destruct (fourth_unit _ Hu0 Hu1). now apply round_byte.
Qed.

Lemma gradient_channels_witness :
  COLORS 20 10 = rgb 27 158 13
  /\ 0 <= red 20 10 <= 255 /\ 0 <= green 20 10 <= 255 /\ 0 <= blue 20 10 <= 255.
Proof. apply (gradient_channels 20 10); lia. Defined.

(** Each channel of an entry inside the trail is a byte. *)
Lemma channel_bounds (L i : Z) :
  2 <= L -> 0 <= i < L ->
  0 <= red L i <= 255 /\ 0 <= green L i <= 255 /\ 0 <= blue L i <= 255.
Proof.
  intros HL Hi.
  destruct (gradient_t_unit L i HL Hi) as [H0 H1].
  assert (Hu0 : (0 <= 1 - gradient_t L i)%Q) by lra.
  assert (Hu1 : (1 - gradient_t L i <= 1)%Q) by lra.
  split; [|split].
  - unfold red. destruct (cube_unit _ Hu0 Hu1). now apply round_byte.
  - unfold green. destruct (ease_unit _ H0 H1). apply round_byte; lra.
  - unfold blue. destruct (fourth_unit _ Hu0 Hu1). now apply round_byte.
Qed.

(** C9.  For a trail of at least two cells the red and the blue channel
    never increase from one offset to a later one, and offset 0, the
    head, carries [(255, 255, 255)], which no channel of any entry
    exceeds. *)
Theorem gradient_monotone (L i j : Z) :
  2 <= L -> 0 <= i -> i <= j -> j < L ->
  red L j <= red L i
  /\ blue L j <= blue L i
  /\ COLORS L 0 = rgb 255 255 255
  /\ red L i <= red L 0 /\ green L i <= green L 0 /\ blue L i <= blue L 0.
Proof.
  intros HL Hi Hij Hj.
  destruct (gradient_t_unit L j HL ltac:(lia)) as [_ Hj1].
  pose proof (gradient_t_mono L i j HL Hij) as Hm.
  assert (Hr : red L 0 = 255).
  { unfold red, JS.round. rewrite gradient_t_head. reflexivity. }
  assert (Hg : green L 0 = 255).
  { unfold green, ease, JS.round. rewrite gradient_t_head. reflexivity. }
  assert (Hb : blue L 0 = 255).
  { unfold blue, JS.round. rewrite gradient_t_head. reflexivity. }
  destruct (channel_bounds L i HL ltac:(lia)) as (Hri & Hgi & Hbi).
  split; [|split; [|split; [|split; [|split]]]].
  - unfold red. apply round_mono, cube_mono; lra.
  - unfold blue. apply round_mono, fourth_mono; lra.
  - unfold COLORS. now rewrite Hr, Hg, Hb.
  - lia.
  - lia.
  - lia.
Qed.

Lemma gradient_monotone_witness :
  red 20 7 <= red 20 3 /\ blue 20 7 <= blue 20 3
  /\ COLORS 20 0 = rgb 255 255 255
  /\ red 20 3 <= red 20 0 /\ green 20 3 <= green 20 0 /\ blue 20 3 <= blue 20 0.
Proof. apply (gradient_monotone 20 3 7); lia. Defined.

(** ** Drops *)

Lemma randomChar_range g :
  unit_source g ->
  0 <= fst (randomChar g) < CHAR_LEN /\ unit_source (snd (randomChar g)).
Proof.
  intros Hg. unfold randomChar, bind, ret.
  destruct (random_unit g Hg) as (H0 & H1 & Hg').
  destruct (random g) as [r g']. simpl in *. split; [|exact Hg'].
  pose proof (floor_scale r CHAR_LEN H0 H1 ltac:(reflexivity)) as Hf.
  rewrite or0_floor; [exact Hf| |].
  - apply Qmult_le_0_compat; [exact H0|]. now vm_compute.
  - assert (CHAR_LEN = 82) as E by reflexivity. lia.
Qed.

Lemma fresh_chars_spec n : forall g,
  unit_source g ->
  length (fst (fresh_chars n g)) = n
  /\ Forall (fun c => 0 <= c < CHAR_LEN) (fst (fresh_chars n g))
  /\ unit_source (snd (fresh_chars n g)).
Proof.
  induction n as [|n IH]; intros g Hg.
  - simpl. repeat split; [constructor|exact Hg].
  - cbn [fresh_chars]. unfold bind, ret.
    destruct (randomChar_range g Hg) as (Hc & Hg1).
    destruct (randomChar g) as [c g1]. simpl in Hc, Hg1.
    destruct (IH g1 Hg1) as (Hlen & Hall & Hg2).
    destruct (fresh_chars n g1) as [cs g2]. simpl in *.
    split; [now rewrite Hlen|]. split; [|exact Hg2].
    constructor; [|exact Hall].
    unfold JS.to_uint16. change CHAR_LEN with 82 in *.
    rewrite Z.mod_small; lia.
Qed.

(** C5.  A drop made by [createDrop] has a glyph buffer of exactly
    [TRAIL_LENGTH] entries, each an index into the alphabet; its speed
    lies in [0.3, 1.0); it starts at [-TRAIL_LENGTH] without a random
    start and at [-floor(random * height)], a row in [(-height, 0]],
    with one. *)
Theorem createDrop_spec (L h : Z) (randomStart : bool) (g : RandomFn) :
  0 <= L -> 0 < h <= 2147483648 -> unit_source g ->
  let d := fst (createDrop L h randomStart g) in
  let r := fst (random (snd (fresh_chars (Z.to_nat L) g))) in
  Z.of_nat (length (chars d)) = L
  /\ Forall (fun c => 0 <= c < CHAR_LEN) (chars d)
  /\ ((3 # 10) <= speed d)%Q /\ (speed d < 1)%Q
  /\ (randomStart = false -> y d = - L)
  /\ (randomStart = true ->
      y d = - Qfloor (r * inject_Z h) /\ - h < y d <= 0).
Proof.
  intros HL Hh Hg. unfold createDrop, bind, ret.
  destruct (fresh_chars_spec (Z.to_nat L) g Hg) as (Hlen & Hall & Hg1).
  destruct (fresh_chars (Z.to_nat L) g) as [cs g1]. simpl in Hlen, Hall, Hg1.
  cbn [fst snd].
  destruct randomStart.
  - destruct (random_unit g1 Hg1) as (H0 & H1 & Hg2).
    destruct (random g1) as [r1 g2]. simpl in H0, H1, Hg2.
    destruct (random_unit g2 Hg2) as (H0' & H1' & _).
    destruct (random g2) as [r2 g3]. simpl in H0', H1'. cbn [fst snd chars speed y].
    pose proof (floor_scale r1 h H0 H1 ltac:(lia)) as Hf.
    assert (Hor : JS.or0 (r1 * inject_Z h) = Qfloor (r1 * inject_Z h)).
    { apply or0_floor; [|lia].
      apply Qmult_le_0_compat; [exact H0|].
      change 0%Q with (inject_Z 0). rewrite <- Zle_Qle. lia. }
    rewrite Hor.
    split; [lia|]. split; [exact Hall|]. split; [lra|]. split; [lra|].
    split; [discriminate|]. intros _. split; [reflexivity|lia].
  - destruct (random_unit g1 Hg1) as (H0 & H1 & _).
    destruct (random g1) as [r1 g2]. simpl in H0, H1. cbn [fst snd chars speed y].
    split; [lia|]. split; [exact Hall|]. split; [lra|]. split; [lra|].
    split; [reflexivity|discriminate].
Qed.

Lemma createDrop_spec_witness :
  let d := fst (createDrop 3 5 true (mulberry32 42)) in
  let r := fst (random (snd (fresh_chars (Z.to_nat 3) (mulberry32 42)))) in
  Z.of_nat (length (chars d)) = 3
  /\ Forall (fun c => 0 <= c < CHAR_LEN) (chars d)
  /\ ((3 # 10) <= speed d)%Q /\ (speed d < 1)%Q
  /\ (true = false -> y d = - 3)
  /\ (true = true -> y d = - Qfloor (r * inject_Z 5) /\ - 5 < y d <= 0).
Proof. apply (createDrop_spec 3 5 true (mulberry32 42)); [lia|lia|exact I]. Defined.

(** ** The erase-and-advance step *)

Lemma Qltb_lt a b : Qltb a b = true <-> (a < b)%Q.
Proof.
  unfold Qltb. rewrite negb_true_iff. split.
  - intros H. apply Qnot_le_lt. intros Hle. apply Qle_bool_iff in Hle. congruence.
  - intros H. destruct (Qle_bool b a) eqn:E; [|reflexivity].
    apply Qle_bool_iff in E. exfalso. exact (Qlt_irrefl _ (Qle_lt_trans _ _ _ E H)).
Qed.

Lemma Qltb_ge a b : Qltb a b = false <-> (b <= a)%Q.
Proof.
  unfold Qltb. rewrite negb_false_iff. apply Qle_bool_iff.
Qed.

Lemma Qle_bool_false a b : Qle_bool a b = false <-> (b < a)%Q.
Proof.
  rewrite <- Qltb_lt. unfold Qltb. now rewrite negb_true_iff.
Qed.

(** The advance step on its own.  A drop that is due ([now >= nextUpdate]) has the cell at row
    [y - TRAIL_LENGTH] erased when that row is on screen, moves down by
    exactly one row, and is next due at [now + 100 / speed]; when the
    following draw of the generator is below 0.3, the slot
    [floor(random * TRAIL_LENGTH)] of its glyph buffer receives the glyph
    [floor(random * CHAR_LEN)], and otherwise the buffer is kept.  A drop
    that is not due is left as it is, nothing is written and the
    generator is not used. *)
Theorem advance_spec (L h : Z) (now : Q) (col : Z) (d : Drop) (g : RandomFn) :
  -2147483648 <= y d < 2147483648 -> 0 < L <= 2147483648 -> unit_source g ->
  let res := advance L h now col d g in
  let d' := fst (fst res) in
  let out := snd (fst res) in
  ((nextUpdate d <= now)%Q ->
     out = (if (1 <=? y d - L) && (y d - L <=? h)
            then [moveTo (y d - L) col; Space] else [])
     /\ y d' = y d + 1
     /\ speed d' = speed d
     /\ nextUpdate d' = (now + 100 / speed d)%Q
     /\ let r := fst (random g) in
        let g1 := snd (random g) in
        let slot := Qfloor (fst (random g1) * inject_Z L) in
        let c := Qfloor (fst (random (snd (random g1))) * inject_Z CHAR_LEN) in
        ((r < 3 # 10)%Q ->
           0 <= slot < L /\ 0 <= c < CHAR_LEN
           /\ chars d' = <[Z.to_nat slot := c]> (chars d)
           /\ snd res = snd (random (snd (random g1))))
        /\ ((3 # 10 <= r)%Q -> chars d' = chars d /\ snd res = g1))
  /\ ((now < nextUpdate d)%Q -> d' = d /\ out = [] /\ snd res = g).
Proof.
  intros Hy HL Hg res d' out. subst res d' out. unfold advance.
  split.
  - intros Hdue. apply Qle_bool_iff in Hdue. rewrite Hdue.
    rewrite (to_int32_small (y d) Hy). unfold visible, bind, ret.
    destruct (random_unit g Hg) as (_ & _ & Hg1).
    destruct (random g) as [r g1]. cbn [fst snd] in *.
    destruct (Qltb r (3 # 10)) eqn:Er.
    + destruct (random_unit g1 Hg1) as (Hs0 & Hs1 & Hg2).
      destruct (random g1) as [s g2]. cbn [fst snd] in *.
      pose proof (randomChar_range g2 Hg2) as [Hc _].
      unfold randomChar, bind, ret in *.
      destruct (random_unit g2 Hg2) as (Hc0 & Hc1 & _).
      destruct (random g2) as [rc g3]. cbn [fst snd y speed chars nextUpdate] in *.
      pose proof (floor_scale s L Hs0 Hs1 ltac:(lia)) as Hslot.
      assert (Hor : JS.or0 (s * inject_Z L) = Qfloor (s * inject_Z L)).
      { apply or0_floor; [|lia]. apply Qmult_le_0_compat; [exact Hs0|].
        change 0%Q with (inject_Z 0). rewrite <- Zle_Qle. lia. }
      assert (Hoc : JS.or0 (rc * inject_Z CHAR_LEN) = Qfloor (rc * inject_Z CHAR_LEN)).
      { pose proof (floor_scale rc CHAR_LEN Hc0 Hc1 ltac:(reflexivity)).
        assert (CHAR_LEN = 82) by reflexivity.
        apply or0_floor; [|lia]. apply Qmult_le_0_compat; [exact Hc0|]. now vm_compute. }
      rewrite Hoc in Hc. rewrite Hor, Hoc.
      repeat (split; [reflexivity|]). split.
      * intros _. split; [exact Hslot|]. split; [exact Hc|]. split; [|reflexivity].
        unfold store. destruct (Z.ltb_spec (Qfloor (s * inject_Z L)) 0); [lia|].
        f_equal. unfold JS.to_uint16. assert (CHAR_LEN = 82) by reflexivity.
        apply Z.mod_small. lia.
      * intros Hge. apply Qltb_lt in Er.
        exfalso. exact (Qlt_irrefl _ (Qlt_le_trans _ _ _ Er Hge)).
    + cbn [fst snd y speed chars nextUpdate].
      repeat (split; [reflexivity|]). split.
      * intros Hlt. apply Qltb_lt in Hlt. congruence.
      * intros _. split; reflexivity.
  - intros Hnot. apply Qle_bool_false in Hnot. rewrite Hnot. unfold ret.
    repeat split.
Qed.

Lemma advance_spec_witness :
  let res := advance 3 24 40 1 sample_drop (mulberry32 42) in
  snd (fst res) = [moveTo 20 1; Space] /\ y (fst (fst res)) = 24
  /\ nextUpdate (fst (fst res)) = (40 + 100 / (1 # 2))%Q.
Proof.
  destruct (advance_spec 3 24 40 1 sample_drop (mulberry32 42)) as [H _];
    [simpl; lia | lia | exact I |].
  destruct H as (Ho & Hy & _ & Hn & _); [discriminate|].
  split; [exact Ho|]. split; [exact Hy|exact Hn].
Defined.

(** Among the 2^32 values the seeded generator can return, those below
    the mutation threshold are exactly the numerators below 1288490189,
    a share within 2^-32 of 0.3. *)
Lemma mutation_threshold (u : Z) :
  (u # 4294967296 < 3 # 10)%Q <-> u < 1288490189.
Proof. unfold Qlt. simpl. lia. Qed.

(** ** Recycling *)

Lemma createDrop_false_y L h g : y (fst (createDrop L h false g)) = - L.
Proof.
  unfold createDrop, bind, ret.
  destruct (fresh_chars (Z.to_nat L) g) as [cs g1].
  now destruct (random g1).
Qed.

(** The drop a column is left with: a fresh one when the test after
    the advance step holds, the advanced one otherwise. *)
Lemma render_column_drop L h now x d g :
  let a := advance L h now (Z.of_nat x + 1) d g in
  fst (fst (render_column L h now x d g))
  = if recycle_due L h (fst (fst a))
    then fst (createDrop L h false (snd a))
    else fst (fst a).
Proof.
  intros a. subst a. unfold render_column, recycle, bind, ret.
  destruct (advance L h now (Z.of_nat x + 1) d g) as [[d1 out] g1]. cbn [fst snd].
  destruct (recycle_due L h d1).
  - destruct (createDrop L h false g1) as [d2 g2].
    destruct (draw L h (Z.of_nat x + 1) d2 (seq 0 (Z.to_nat L)) g2); reflexivity.
  - destruct (draw L h (Z.of_nat x + 1) d1 (seq 0 (Z.to_nat L)) g1); reflexivity.
Qed.

(** The column loop over the slots [a, a + n): it succeeds when they
    all exist, touches no other slot, and leaves in each of them what
    the loop body computes from the drop it held. *)
Lemma render_columns_seq L h now n : forall a (ds : list Drop) g,
  (a + n <= length ds)%nat ->
  exists ds' out g',
    render_columns L h now (seq a n) ds g = (Some (ds', out), g')
    /\ length ds' = length ds
    /\ (forall x : nat, (x < a \/ a + n <= x)%nat -> ds' !! x = ds !! x)
    /\ (forall (x : nat) (d : Drop), (a <= x < a + n)%nat -> ds !! x = Some d ->
        exists gx, ds' !! x = Some (fst (fst (render_column L h now x d gx)))).
Proof.
  induction n as [|n IH]; intros a ds g Hlen.
  - exists ds, [], g. cbn. split; [reflexivity|]. split; [reflexivity|].
    split; [reflexivity|]. intros x d Hx. lia.
  - cbn [seq render_columns].
    destruct (lookup_lt_is_Some_2 ds a ltac:(lia)) as [d Hd]. rewrite Hd.
    unfold bind, ret.
    destruct (render_column L h now a d g) as [[d2 o] g1] eqn:Ec. cbn [fst snd].
    destruct (IH (S a) (<[a := d2]> ds) g1) as (ds' & out & g' & Hr & Hl & Hout & Hin).
    { rewrite length_insert. lia. }
    rewrite Hr. exists ds', (o ++ out), g'.
    split; [reflexivity|]. rewrite length_insert in Hl. split; [exact Hl|]. split.
    + intros x Hx. rewrite Hout by lia. apply list_lookup_insert_ne. lia.
    + intros x dx Hx Hdx. destruct (decide (x = a)) as [->|Hne].
      * exists g. rewrite Hout by lia.
        rewrite list_lookup_insert_eq by lia.
        assert (dx = d) by congruence. subst dx. now rewrite Ec.
      * apply (Hin x dx); [lia|].
        rewrite list_lookup_insert_ne by lia. exact Hdx.
Qed.

(** C3.  In a render pass over an engine whose drop array matches its
    width, the drop of each column is replaced by a fresh drop (made
    without a random start) when, at the test after the advance step,
    [y - TRAIL_LENGTH > height], and is the advanced drop itself
    otherwise.  A fresh drop sits at [-TRAIL_LENGTH]: its trailing edge
    [-2 * TRAIL_LENGTH] is above row 1. *)
Theorem recycle_iff (L : Z) (now : Q) (e : Engine) (g : RandomFn) :
  0 < L ->
  length (drops e) = Z.to_nat (width e) ->
  exists e' out g',
    render L now e g = (Some (e', out), g')
    /\ forall (x : nat) (d : Drop), drops e !! x = Some d ->
       exists gx,
         let a := advance L (height e) now (Z.of_nat x + 1) d gx in
         let d1 := fst (fst a) in
         let fresh := fst (createDrop L (height e) false (snd a)) in
         (recycle_due L (height e) d1 = true <-> height e < y d1 - L)
         /\ (height e < y d1 - L ->
               drops e' !! x = Some fresh
               /\ y fresh = - L /\ y fresh - L = - 2 * L /\ y fresh - L <= 1)
         /\ (y d1 - L <= height e -> drops e' !! x = Some d1).
Proof.
  intros HL Hlen. unfold render, bind, ret.
  destruct (render_columns_seq L (height e) now (Z.to_nat (width e)) 0%nat (drops e) g)
    as (ds' & out & g' & Hr & _ & _ & Hin); [lia|].
  rewrite Hr. eexists _, out, g'. split; [reflexivity|]. cbn [drops].
  intros x d Hd.
  destruct (Hin x d) as [gx Hx]; [|exact Hd|].
  { apply lookup_lt_Some in Hd. lia. }
  exists gx. cbv zeta.
  rewrite render_column_drop in Hx. cbv zeta in Hx.
  unfold recycle_due in *.
  pose proof (createDrop_false_y L (height e)
                (snd (advance L (height e) now (Z.of_nat x + 1) d gx))) as Hy.
  split; [apply Z.ltb_lt|]. split.
  - intros Hdue. apply Z.ltb_lt in Hdue. rewrite Hdue in Hx.
    split; [exact Hx|]. lia.
  - intros Hnot. apply Z.ltb_ge in Hnot. rewrite Hnot in Hx. exact Hx.
Qed.

Lemma recycle_iff_witness :
  exists e' out g', render 3 40 sample_engine (mulberry32 42) = (Some (e', out), g').
Proof.
  destruct (recycle_iff 3 40 sample_engine (mulberry32 42)) as (e' & out & g' & H & _);
    [lia | reflexivity |].
  exists e', out, g'. exact H.
Defined.

(** The scenario of a trail of 3 on a screen of 5 rows: the drop at row
    8 advances to row 9, where [9 - 3 > 5], and the column restarts at
    row -3. *)
Example recycle_scenario :
  option_map (fun r => map y (drops (fst r)))
             (fst (render 3 40 sample_engine (mulberry32 42))) = Some [-3].
Proof. vm_compute. reflexivity. Qed.

(** ** Resize *)

(** The reallocation loop over the slots [a, a + n): one drop per slot,
    the old one where there was one and a fresh one elsewhere; when
    every slot had a drop the generator is not used. *)
Lemma resized_drops_seq L h (oldDrops : list Drop) n : forall a g,
  let ds := fst (resized_drops L h oldDrops (seq a n) g) in
  length ds = n
  /\ (forall (k : nat) (d : Drop), (k < n)%nat ->
      oldDrops !! (a + k)%nat = Some d -> ds !! k = Some d)
  /\ (forall k : nat, (k < n)%nat -> oldDrops !! (a + k)%nat = None ->
      exists gx, ds !! k = Some (fst (createDrop L h true gx)))
  /\ ((a + n <= length oldDrops)%nat ->
      snd (resized_drops L h oldDrops (seq a n) g) = g).
Proof.
  induction n as [|n IH]; intros a g.
  - cbn. split; [reflexivity|]. split; [intros; lia|]. split; [intros; lia|]. reflexivity.
  - cbn [seq resized_drops]. unfold bind, ret.
    destruct (oldDrops !! a) as [d|] eqn:Ea.
    + specialize (IH (S a) g). cbv zeta in IH.
      destruct (resized_drops L h oldDrops (seq (S a) n) g) as [ds g'].
      cbn [fst snd] in *. destruct IH as (Hl & Hold & Hnew & Hg).
      split; [cbn; lia|]. split; [|split].
      * intros [|k] dk Hk Hdk.
        -- rewrite Nat.add_0_r in Hdk. cbn. congruence.
        -- cbn. apply Hold; [lia|]. now rewrite <- Nat.add_succ_comm in Hdk.
      * intros [|k] Hk Hnone.
        -- rewrite Nat.add_0_r in Hnone. congruence.
        -- cbn. apply Hnew; [lia|]. now rewrite <- Nat.add_succ_comm in Hnone.
      * intros Hle. apply Hg. lia.
    + destruct (createDrop L h true g) as [d g1] eqn:Ec.
      specialize (IH (S a) g1). cbv zeta in IH.
      destruct (resized_drops L h oldDrops (seq (S a) n) g1) as [ds g'].
      cbn [fst snd] in *. destruct IH as (Hl & Hold & Hnew & Hg).
      split; [cbn; lia|]. split; [|split].
      * intros [|k] dk Hk Hdk.
        -- rewrite Nat.add_0_r in Hdk. congruence.
        -- cbn. apply Hold; [lia|]. now rewrite <- Nat.add_succ_comm in Hdk.
      * intros [|k] Hk Hnone.
        -- exists g. cbn. now rewrite Ec.
        -- cbn. apply Hnew; [lia|]. now rewrite <- Nat.add_succ_comm in Hnone.
      * intros Hle. apply lookup_ge_None in Ea. lia.
Qed.



(** ** Frame pacing *)

Lemma spaced_snoc gap ts t :
  spaced gap ts ->
  (forall t0, last ts = Some t0 -> (gap <= t - t0)%Q) ->
  spaced gap (ts ++ [t]).
Proof.
  intros Hs Hlast i t1 t2 H1 H2.
  destruct (decide (S i < length ts)%nat) as [Hlt|Hge].
  - rewrite lookup_app_l in H1 by lia. rewrite lookup_app_l in H2 by lia.
    exact (Hs i t1 t2 H1 H2).
  - pose proof (lookup_lt_Some _ _ _ H2) as Hb. rewrite length_app in Hb. cbn in Hb.
    assert (S i = length ts) as Ei by lia.
    rewrite lookup_app_l in H1 by lia.
    rewrite lookup_app_r in H2 by lia.
    replace (S i - length ts)%nat with 0%nat in H2 by lia. cbn in H2.
    injection H2 as <-. apply Hlast.
    rewrite last_lookup. rewrite <- Ei. cbn. exact H1.
Qed.

Lemma on_resize_lastFrame L columns rows e g e' out g' :
  on_resize L columns rows e g = (Some (e', out), g') -> lastFrame e' = lastFrame e.
Proof.
  unfold on_resize, bind, ret. intros H.
  destruct (negb (JS.or_default columns 80 =? width e)).
  - destruct (array_length_ok (JS.or_default columns 80)); [|discriminate].
    destruct (resized_drops L (height e) (drops e) _ g). injection H as <- _ _. reflexivity.
  - injection H as <- _ _. reflexivity.
Qed.

Lemma step_paced L F p ev : paced F p -> paced F (step L F p ev).
Proof.
  intros [Hs Hl]. unfold step. destruct (status p); [|split; assumption..].
  destruct ev as [now|columns rows| |].
  - unfold iteration. destruct (running (engine p)); [|split; assumption].
    destruct (Qle_bool (frameTime F) (now - lastFrame (engine p))) eqn:Eq;
      [|split; assumption].
    destruct (render L now (engine p) (rng p)) as [[[e' out]|] g'].
    + split; cbn [frames engine lastFrame].
      * apply spaced_snoc; [exact Hs|]. intros t0 Ht0.
        rewrite <- (Hl t0 Ht0). now apply Qle_bool_iff.
      * intros t. rewrite last_snoc. congruence.
    + split; assumption.
  - unfold handle_resize.
    destruct (on_resize L columns rows (engine p) (rng p)) as [[[e' out]|] g'] eqn:Er.
    + split; cbn [frames engine]; [exact Hs|]. intros t Ht.
      rewrite (on_resize_lastFrame _ _ _ _ _ _ _ _ Er). now apply Hl.
    + split; assumption.
  - split; [exact Hs|exact Hl].
  - split; [exact Hs|exact Hl].
Qed.

Lemma run_events_paced L F evs : forall p, paced F p -> paced F (run_events L F p evs).
Proof.
  induction evs as [|ev evs IH]; intros p Hp; [exact Hp|].
  cbn. apply IH. now apply step_paced.
Qed.

Lemma launch_frames L columns rows g p :
  launch L columns rows g = Some p -> frames p = [] /\ status p = Alive
  /\ stdout p = [[HIDE_CURSOR; CLEAR_SCREEN]].
Proof.
  unfold launch. destruct (construct L columns rows g) as [[e|] g']; [|discriminate].
  intros [= <-]. repeat split.
Qed.

(** C7.  In any run, two consecutive calls of [render], at clock
    readings [t1] then [t2], satisfy [t2 - t1 >= 1000 / TARGET_FPS]. *)
Theorem frame_pacing (args : Args) (host : nat -> Q) (columns rows : option Z)
  (evs : list Event) (p : Process) (i : nat) (t1 t2 : Q) :
  play args host columns rows evs = Some p ->
  frames p !! i = Some t1 ->
  frames p !! S i = Some t2 ->
  (1000 / inject_Z (target_fps args) <= t2 - t1)%Q.
Proof.
  unfold play, main. intros Hp H1 H2.
  destruct (array_length_ok (trail_length args)); [|discriminate].
  destruct (launch (trail_length args) columns rows _) as [p0|] eqn:El; [|discriminate].
  injection Hp as <-.
  destruct (launch_frames _ _ _ _ _ El) as (Hf & _).
  assert (Hp0 : paced (target_fps args) p0).
  { split; rewrite Hf; [intros j a b Hj; discriminate|discriminate]. }
  destruct (run_events_paced (trail_length args) (target_fps args) evs p0 Hp0) as [Hs _].
  exact (Hs i t1 t2 H1 H2).
Qed.

Lemma frame_pacing_witness :
  (1000 / inject_Z 30 <= 80 - 40)%Q.
Proof.
  eapply (frame_pacing (mkArgs (Some 42) None (Some 3)) (fun _ => 0%Q) (Some 2) (Some 5)
            [Tick 40; Tick 50; Tick 80; Tick 90] _ 0%nat 40 80).
  - vm_compute. reflexivity.
  - reflexivity.
  - reflexivity.
Defined.

(** ** Shutdown *)

Lemma shows_cursor_app w1 w2 :
  shows_cursor (w1 ++ w2) = shows_cursor w1 || shows_cursor w2.
Proof. apply existsb_app. Qed.

Lemma count_cleanups_snoc ws w :
  count_cleanups (ws ++ [w]) = (count_cleanups ws + if shows_cursor w then 1 else 0)%nat.
Proof.
  unfold count_cleanups. rewrite List.filter_app, length_app. cbn.
  now destruct (shows_cursor w).
Qed.

Lemma advance_quiet L h now col d g :
  shows_cursor (snd (fst (advance L h now col d g))) = false.
Proof.
  unfold advance, bind, ret. destruct (Qle_bool (nextUpdate d) now); [|reflexivity].
  destruct (random g) as [r g1]. destruct (Qltb r (3 # 10)).
  - destruct (random g1) as [s g2]. unfold randomChar, bind, ret.
    destruct (random g2) as [c g3]. cbn [fst snd].
    destruct (visible h (JS.to_int32 (y d) - L)); reflexivity.
  - cbn [fst snd]. destruct (visible h (JS.to_int32 (y d) - L)); reflexivity.
Qed.

Lemma draw_quiet L h col d offsets : forall g,
  shows_cursor (fst (draw L h col d offsets g)) = false.
Proof.
  induction offsets as [|i offsets IH]; intros g; [reflexivity|].
  cbn [draw]. destruct (negb (visible h (JS.to_int32 (y d) - Z.of_nat i))); [apply IH|].
  unfold bind, ret. destruct i as [|i].
  - destruct (random g) as [r g1]. destruct (Qltb r (1 # 10)).
    + specialize (IH g1). destruct (draw L h col d offsets g1) as [rest g2].
      cbn [fst snd] in *. rewrite shows_cursor_app, IH. reflexivity.
    + specialize (IH g1). destruct (draw L h col d offsets g1) as [rest g2].
      cbn [fst snd] in *. rewrite shows_cursor_app, IH. reflexivity.
  - specialize (IH g). destruct (draw L h col d offsets g) as [rest g2].
    cbn [fst snd] in *. rewrite shows_cursor_app, IH. reflexivity.
Qed.

Lemma render_column_quiet L h now x d g :
  shows_cursor (snd (fst (render_column L h now x d g))) = false.
Proof.
  unfold render_column, bind, ret.
  pose proof (advance_quiet L h now (Z.of_nat x + 1) d g) as Ha.
  destruct (advance L h now (Z.of_nat x + 1) d g) as [[d1 o1] g1]. cbn [fst snd] in *.
  destruct (recycle L h d1 g1) as [d2 g2].
  pose proof (draw_quiet L h (Z.of_nat x + 1) d2 (seq 0 (Z.to_nat L)) g2) as Hd.
  destruct (draw L h (Z.of_nat x + 1) d2 (seq 0 (Z.to_nat L)) g2) as [cells g3].
  cbn [fst snd] in *. now rewrite shows_cursor_app, Ha, Hd.
Qed.

Lemma render_columns_quiet L h now xs : forall ds g ds' out g',
  render_columns L h now xs ds g = (Some (ds', out), g') -> shows_cursor out = false.
Proof.
  induction xs as [|x xs IH]; intros ds g ds' out g' H.
  - cbn in H. injection H as _ <- _. reflexivity.
  - cbn [render_columns] in H. destruct (ds !! x) as [d|]; [|discriminate].
    unfold bind, ret in H.
    pose proof (render_column_quiet L h now x d g) as Hc.
    destruct (render_column L h now x d g) as [[d2 o] g1]. cbn [fst snd] in *.
    destruct (render_columns L h now xs (<[x:=d2]> ds) g1) as [[[ds1 out1]|] g2] eqn:Er;
      [|discriminate].
    injection H as _ <- _. rewrite shows_cursor_app, Hc. exact (IH _ _ _ _ _ Er).
Qed.

Lemma render_quiet L now e g e' out g' :
  render L now e g = (Some (e', out), g') -> shows_cursor out = false.
Proof.
  unfold render, bind, ret. intros H.
  destruct (render_columns L (height e) now (seq 0 (Z.to_nat (width e))) (drops e) g)
    as [[[ds out1]|] g1] eqn:Er; [|discriminate].
  injection H as _ <- _. exact (render_columns_quiet _ _ _ _ _ _ _ _ _ Er).
Qed.

Lemma on_resize_out L columns rows e g e' out g' :
  on_resize L columns rows e g = (Some (e', out), g') -> out = [CLEAR_SCREEN].
Proof.
  unfold on_resize, bind, ret. intros H.
  destruct (negb (JS.or_default columns 80 =? width e)).
  - destruct (array_length_ok (JS.or_default columns 80)); [|discriminate].
    destruct (resized_drops L (height e) (drops e) _ g). injection H as _ <- _. reflexivity.
  - injection H as _ <- _. reflexivity.
Qed.

Lemma step_unstopped L F p ev :
  status p = Alive -> count_cleanups (stdout p) = 0%nat -> pending p = [] ->
  unstopped (step L F p ev).
Proof.
  intros Ha Hc Hpe. unfold step. rewrite Ha. destruct ev as [now|columns rows| |].
  - unfold iteration. destruct (running (engine p)); [|intros _; split; assumption].
    destruct (Qle_bool (frameTime F) (now - lastFrame (engine p)));
      [|intros _; split; assumption].
    destruct (render L now (engine p) (rng p)) as [[[e' out]|] g'] eqn:Er.
    + intros _. cbn [stdout pending]. split; [|exact Hpe].
      rewrite count_cleanups_snoc, Hc.
      now rewrite (render_quiet _ _ _ _ _ _ _ Er).
    + discriminate.
  - unfold handle_resize.
    destruct (on_resize L columns rows (engine p) (rng p)) as [[[e' out]|] g'] eqn:Er.
    + intros _. cbn [stdout pending]. split; [|exact Hpe].
      rewrite count_cleanups_snoc, Hc.
      now rewrite (on_resize_out _ _ _ _ _ _ _ _ Er).
    + discriminate.
  - discriminate.
  - discriminate.
Qed.

Lemma step_dead L F p ev : status p <> Alive -> step L F p ev = p.
Proof. unfold step. now destruct (status p). Qed.

Lemma run_events_dead L F evs : forall p,
  status p <> Alive -> run_events L F p evs = p.
Proof.
  induction evs as [|ev evs IH]; intros p Hp; [reflexivity|].
  cbn. rewrite step_dead by exact Hp. now apply IH.
Qed.

Lemma run_events_app L F p evs1 evs2 :
  run_events L F p (evs1 ++ evs2) = run_events L F (run_events L F p evs1) evs2.
Proof. apply fold_left_app. Qed.

(** A process that is alive after some events was alive before them
    and has not yet turned the cursor back on. *)
Lemma run_events_unstopped L F evs : forall p,
  unstopped p -> unstopped (run_events L F p evs).
Proof.
  induction evs as [|ev evs IH]; intros p Hp; [exact Hp|].
  cbn. apply IH. destruct (status p) eqn:Es.
  - destruct (Hp Es) as [Hc Hpe]. now apply step_unstopped.
  - rewrite step_dead by congruence. intros Ha. congruence.
  - rewrite step_dead by congruence. intros Ha. congruence.
Qed.

Lemma launch_pending L columns rows g p :
  launch L columns rows g = Some p -> pending p = [].
Proof.
  unfold launch. destruct (construct L columns rows g) as [[e|] g']; [|discriminate].
  intros [= <-]. reflexivity.
Qed.

(** C8.  When an interrupt or terminate signal reaches the running
    process, [stop()] clears the running flag and the process exits
    with code 0; whatever arrives afterwards, further signals included,
    changes nothing, so this happens once.  The write of colour reset,
    show-cursor, clear-screen and cursor-to-(1, 1) is started exactly
    once but not awaited before [process.exit]: it is not among the
    completed writes, which never turn the cursor back on, and reaches
    the terminal only if the host completes it on its own. *)
Theorem shutdown_write_pending (args : Args) (host : nat -> Q) (columns rows : option Z)
  (pre post : list Event) (sig : Event) (p0 : Process) :
  play args host columns rows pre = Some p0 ->
  status p0 = Alive ->
  sig = SIGINT \/ sig = SIGTERM ->
  exists p,
    play args host columns rows (pre ++ sig :: post) = Some p
    /\ status p = Exited 0
    /\ running (engine p) = false
    /\ stdout p = stdout p0
    /\ pending p = [cleanup]
    /\ write_string cleanup
       = (ESC ++ "0m" ++ ESC ++ "?25h" ++ ESC ++ "2J" ++ ESC ++ "1;1H")%string
    /\ count_cleanups (terminal false p) = 0%nat
    /\ count_cleanups (terminal true p) = 1%nat.
Proof.
  unfold play. intros Hp Ha Hsig.
  destruct (main args host columns rows) as [q|] eqn:Em; [|discriminate].
  injection Hp as Hp.
  set (L := trail_length args) in *. set (F := target_fps args) in *.
  assert (Hq : unstopped q).
  { unfold main in Em. destruct (array_length_ok (trail_length args)); [|discriminate].
    destruct (launch_frames _ _ _ _ _ Em) as (_ & _ & Ho). intros _.
    rewrite Ho. split; [reflexivity|]. exact (launch_pending _ _ _ _ _ Em). }
  pose proof (run_events_unstopped L F pre q Hq) as Hu. rewrite Hp in Hu.
  destruct (Hu Ha) as [Hc Hpe].
  exists (stop p0).
  assert (Hstep : step L F p0 sig = stop p0).
  { unfold step. rewrite Ha. now destruct Hsig as [-> | ->]. }
  split.
  { rewrite run_events_app, Hp. cbn [run_events fold_left]. rewrite Hstep.
    f_equal. apply run_events_dead. discriminate. }
  split; [reflexivity|]. split; [reflexivity|]. split; [reflexivity|].
  split; [cbn [stop pending]; now rewrite Hpe|]. split; [reflexivity|].
  unfold terminal. cbn [stop stdout pending]. rewrite Hpe. cbn [app]. split.
  - now rewrite app_nil_r.
  - rewrite count_cleanups_snoc, Hc. reflexivity.
Qed.

Lemma shutdown_write_pending_witness :
  exists p,
    play (mkArgs (Some 42) None (Some 3)) (fun _ => 0%Q) (Some 2) (Some 5)
         ([Tick 40; Resize (Some 3) (Some 6); Tick 80] ++ SIGINT :: [Tick 120; SIGTERM; SIGINT])
    = Some p
    /\ status p = Exited 0
    /\ pending p = [cleanup]
    /\ count_cleanups (terminal false p) = 0%nat.
Proof.
  edestruct (shutdown_write_pending (mkArgs (Some 42) None (Some 3)) (fun _ => 0%Q)
               (Some 2) (Some 5)
               [Tick 40; Resize (Some 3) (Some 6); Tick 80] [Tick 120; SIGTERM; SIGINT] SIGINT)
    as (p & Hp & Hs & _ & _ & Hpe & _ & Hc & _).
  - vm_compute. reflexivity.
  - reflexivity.
  - left. reflexivity.
  - exists p. split; [exact Hp|]. split; [exact Hs|]. split; [exact Hpe|exact Hc].
Defined.

(** ** The process keeps running *)

Lemma fresh_drops_length L h n : forall g, length (fst (fresh_drops L h n g)) = n.
Proof.
  induction n as [|n IH]; intros g; [reflexivity|].
  cbn [fresh_drops]. unfold bind, ret.
  destruct (createDrop L h true g) as [d g1].
  specialize (IH g1). destruct (fresh_drops L h n g1) as [ds g2].
  cbn in *. now rewrite IH.
Qed.

Lemma launch_well_formed L columns rows g p :
  launch L columns rows g = Some p -> well_formed p.
Proof.
  unfold launch, construct, bind, ret.
  destruct (array_length_ok (JS.or_default columns 80)); [|discriminate].
  pose proof (fresh_drops_length L (JS.or_default rows 24)
                (Z.to_nat (JS.or_default columns 80)) g) as Hl.
  destruct (fresh_drops L (JS.or_default rows 24) _ g) as [ds g1].
  intros [= <-]. exact Hl.
Qed.

Lemma render_well_formed L now e g :
  length (drops e) = Z.to_nat (width e) ->
  exists e' out g',
    render L now e g = (Some (e', out), g')
    /\ length (drops e') = Z.to_nat (width e') .
Proof.
  intros Hlen. unfold render, bind, ret.
  destruct (render_columns_seq L (height e) now (Z.to_nat (width e)) 0%nat (drops e) g)
    as (ds' & out & g' & Hr & Hl & _); [lia|].
  rewrite Hr. eexists _, out, g'. split; [reflexivity|]. cbn. lia.
Qed.

Lemma step_alive L F p ev :
  well_formed p -> status p = Alive -> benign ev ->
  well_formed (step L F p ev) /\ status (step L F p ev) = Alive.
Proof.
  intros Hwf Ha Hev. unfold step. rewrite Ha.
  destruct ev as [now|columns rows| |]; [| |contradiction..].
  - unfold iteration. destruct (running (engine p)); [|split; assumption].
    destruct (Qle_bool (frameTime F) (now - lastFrame (engine p))); [|split; assumption].
    destruct (render_well_formed L now (engine p) (rng p) Hwf) as (e' & out & g' & Hr & Hl).
    rewrite Hr. split; [exact Hl|reflexivity].
  - unfold handle_resize, on_resize, bind, ret. cbn in Hev.
    destruct (Z.eqb_spec (JS.or_default columns 80) (width (engine p))) as [E|_]; cbn [negb].
    + split; [|reflexivity]. unfold well_formed. cbn. rewrite E. exact Hwf.
    + unfold array_length_ok.
      destruct (Z.leb_spec 0 (JS.or_default columns 80)); [|lia].
      destruct (Z.ltb_spec (JS.or_default columns 80) 4294967296); [|lia]. cbn [andb].
      pose proof (resized_drops_seq L (height (engine p)) (drops (engine p))
                    (Z.to_nat (JS.or_default columns 80)) 0%nat (rng p)) as Hs.
      cbv zeta in Hs.
      destruct (resized_drops L (height (engine p)) (drops (engine p)) _ (rng p)) as [ds g'].
      split; [|reflexivity]. unfold well_formed. cbn. now destruct Hs.
Qed.

(** Until a signal arrives the process neither exits nor fails. *)
Lemma alive_until_signal L F evs : forall p,
  well_formed p -> status p = Alive -> Forall benign evs ->
  well_formed (run_events L F p evs) /\ status (run_events L F p evs) = Alive.
Proof.
  induction evs as [|ev evs IH]; intros p Hwf Ha Hevs; [split; assumption|].
  inversion Hevs as [|? ? Hev Hrest]; subst.
  destruct (step_alive L F p ev Hwf Ha Hev) as [Hwf' Ha'].
  cbn. now apply IH.
Qed.

(** The program starts whenever the trail length and the terminal width
    are valid array lengths. *)
Lemma main_starts args host columns rows :
  0 <= trail_length args < 4294967296 ->
  0 <= JS.or_default columns 80 < 4294967296 ->
  exists p, main args host columns rows = Some p /\ well_formed p /\ status p = Alive.
Proof.
  intros HL Hw. unfold main, array_length_ok.
  destruct (Z.leb_spec 0 (trail_length args)); [|lia].
  destruct (Z.ltb_spec (trail_length args) 4294967296); [|lia]. cbn [andb].
  destruct (launch (trail_length args) columns rows (make_random (seed args) host))
    as [p|] eqn:El.
  - exists p. split; [reflexivity|]. split; [now apply launch_well_formed in El|].
    now apply launch_frames in El.
  - exfalso. unfold launch, construct, array_length_ok, bind, ret in El.
    destruct (Z.leb_spec 0 (JS.or_default columns 80)); [|lia].
    destruct (Z.ltb_spec (JS.or_default columns 80) 4294967296); [|lia]. cbn [andb] in El.
    destruct (fresh_drops _ _ _ _). discriminate.
Qed.

(** ** Positions stay small *)

(** After its column has been rendered a drop is never lower than
    [height + TRAIL_LENGTH], and never higher than where it was or where
    fresh drops start; positions therefore fit in 32 bits as long as the
    screen and the trail do. *)
Lemma render_column_position L h now x d g :
  0 <= 2 * L + h ->
  let d' := fst (fst (render_column L h now x d g)) in
  y d' <= h + L /\ (y d <= y d' \/ y d' = - L).
Proof.
  intros Hh d'. subst d'. rewrite render_column_drop. cbv zeta.
  pose proof (createDrop_false_y L h (snd (advance L h now (Z.of_nat x + 1) d g))) as Hf.
  assert (Hadv : y d <= y (fst (fst (advance L h now (Z.of_nat x + 1) d g)))).
  { unfold advance, bind, ret. destruct (Qle_bool (nextUpdate d) now); [|cbn; lia].
    destruct (random g) as [r g1]. destruct (Qltb r (3 # 10)); [|cbn; lia].
    destruct (random g1) as [s g2]. unfold randomChar, bind, ret.
    destruct (random g2) as [c g3]. cbn. lia. }
  unfold recycle_due.
  destruct (Z.ltb_spec h (y (fst (fst (advance L h now (Z.of_nat x + 1) d g))) - L)); lia.
Qed.

(** * Further properties *)

(** ** The generator's cell *)

Lemma skip_mulberry32 n : forall s,
  skip n (mulberry32 s) = mulberry32 (s + Z.of_nat n * 1831565813).
Proof.
  induction n as [|n IH]; intros s.
  - cbn [skip]. f_equal. lia.
  - cbn [skip]. unfold mulberry32 at 1. cbn [random mulberry32_next snd].
    rewrite to_int32_idem_add.
    change (Seeded (JS.to_int32 (s + 1831565813))) with (mulberry32 (s + 1831565813)).
    rewrite IH. f_equal. lia.
Qed.

(** X1.  The cell of the seeded generator is a counter: after [n] calls
    it holds the seed plus [n] times the constant, in 32 bits; it comes
    back to its first value exactly when [n] is a multiple of 2^32, so
    the sequence of outputs has period 2^32 and no seed gives a shorter
    cycle of cells. *)
Theorem mulberry32_period (s : Z) (n : nat) :
  skip n (mulberry32 s) = mulberry32 (s + Z.of_nat n * 1831565813)
  /\ (skip n (mulberry32 s) = mulberry32 s <-> Z.of_nat n mod 4294967296 = 0).
Proof.
  split; [apply skip_mulberry32|].
  rewrite skip_mulberry32. unfold mulberry32.
  split.
  - intros [= H]. apply to_int32_eq_iff in H.
    replace (s + Z.of_nat n * 1831565813 - s) with (Z.of_nat n * 1831565813) in H by lia.
    apply Z.mod_divide in H; [|lia]. apply Z.mod_divide; [lia|].
    apply Z.gauss with (m := 1831565813).
    + now rewrite Z.mul_comm.
    + reflexivity.
  - intros H. f_equal. apply to_int32_eq_iff.
    replace (s + Z.of_nat n * 1831565813 - s) with (Z.of_nat n * 1831565813) by lia.
    apply Z.mod_divide in H; [|lia]. apply Z.mod_divide; [lia|].
    now apply Z.divide_mul_l.
Qed.

(** ** How much randomness is used *)

Lemma skip_add n : forall m g, skip (n + m) g = skip m (skip n g).
Proof. induction n as [|n IH]; intros m g; [reflexivity|]. cbn [Nat.add skip]. apply IH. Qed.

Lemma randomChar_skip g : snd (randomChar g) = skip 1 g.
Proof. unfold randomChar, bind, ret. cbn [skip]. destruct (random g); reflexivity. Qed.

Lemma fresh_chars_skip n : forall g, snd (fresh_chars n g) = skip n g.
Proof.
  induction n as [|n IH]; intros g; [reflexivity|].
  cbn [fresh_chars skip]. unfold bind, ret.
  pose proof (randomChar_skip g) as Hc. cbn [skip] in Hc.
  destruct (randomChar g) as [c g1]. cbn [snd] in Hc. subst g1.
  specialize (IH (snd (random g))).
  destruct (fresh_chars n (snd (random g))) as [cs g2]. exact IH.
Qed.

Lemma createDrop_skip L h randomStart g :
  snd (createDrop L h randomStart g)
  = skip (Z.to_nat L + (if randomStart then 2 else 1)) g.
Proof.
  unfold createDrop, bind, ret. rewrite skip_add.
  pose proof (fresh_chars_skip (Z.to_nat L) g) as Hc.
  destruct (fresh_chars (Z.to_nat L) g) as [cs g1]. cbn [snd] in Hc. subst g1.
  destruct randomStart; cbn [skip].
  - destruct (random (skip (Z.to_nat L) g)) as [r1 g2]. cbn [snd].
    destruct (random g2) as [r2 g3]. reflexivity.
  - destruct (random (skip (Z.to_nat L) g)) as [r1 g2]. reflexivity.
Qed.

(** X2.  Making a drop calls the generator once per glyph and once for
    the speed, plus once for a random start; filling [n] columns at
    start-up therefore uses exactly [n * (TRAIL_LENGTH + 2)] values. *)
Theorem createDrop_draws (L h : Z) (randomStart : bool) (n : nat) (g : RandomFn) :
  snd (createDrop L h randomStart g)
  = skip (Z.to_nat L + (if randomStart then 2 else 1)) g
  /\ snd (fresh_drops L h n g) = skip (n * (Z.to_nat L + 2)) g.
Proof.
  split; [apply createDrop_skip|].
  revert g. induction n as [|n IH]; intros g; [reflexivity|].
  cbn [fresh_drops]. unfold bind, ret.
  pose proof (createDrop_skip L h true g) as Hc.
  destruct (createDrop L h true g) as [d g1]. cbn [snd] in Hc. subst g1.
  specialize (IH (skip (Z.to_nat L + 2) g)).
  destruct (fresh_drops L h n (skip (Z.to_nat L + 2) g)) as [ds g2]. cbn [snd] in *.
  rewrite IH. rewrite <- skip_add. f_equal.
Qed.

(** ** The drawing loop *)

Lemma draw_moves L h col d offsets : forall g,
  List.filter is_moveTo (fst (draw L h col d offsets g))
  = map (fun i : nat => moveTo (JS.to_int32 (y d) - Z.of_nat i) col)
        (List.filter (fun i : nat => visible h (JS.to_int32 (y d) - Z.of_nat i)) offsets).
Proof.
  induction offsets as [|i offsets IH]; intros g; [reflexivity|].
  cbn [draw List.filter].
  destruct (visible h (JS.to_int32 (y d) - Z.of_nat i)); cbn [negb]; [|apply IH].
  unfold bind, ret. destruct i as [|i].
  - destruct (random g) as [r g1]. destruct (Qltb r (1 # 10)).
    + specialize (IH g1). destruct (draw L h col d offsets g1) as [rest g2].
      cbn [fst] in *. cbn. now rewrite IH.
    + specialize (IH g1). destruct (draw L h col d offsets g1) as [rest g2].
      cbn [fst] in *. cbn. now rewrite IH.
  - specialize (IH g). destruct (draw L h col d offsets g) as [rest g2].
    cbn [fst] in *. cbn -[Z.of_nat]. now rewrite IH.
Qed.

(** X3.  The drawing loop writes one cell for each trail offset whose
    row is on screen, head first and in order, and nothing for the
    others: the cursor moves of its output are exactly the visible rows
    [y - i]. *)
Theorem draw_visible_cells (L h col : Z) (d : Drop) (g : RandomFn) :
  List.filter is_moveTo (fst (draw L h col d (seq 0 (Z.to_nat L)) g))
  = map (fun i : nat => moveTo (JS.to_int32 (y d) - Z.of_nat i) col)
        (List.filter (fun i : nat => visible h (JS.to_int32 (y d) - Z.of_nat i))
                     (seq 0 (Z.to_nat L))).
Proof. apply draw_moves. Qed.

Lemma draw_tail_fixed L h col d offsets : forall g,
  Forall (fun i : nat => i <> 0%nat) offsets ->
  snd (draw L h col d offsets g) = g
  /\ forall g2, fst (draw L h col d offsets g2) = fst (draw L h col d offsets g).
Proof.
  induction offsets as [|i offsets IH]; intros g Hnz; [split; reflexivity|].
  inversion Hnz as [|? ? Hi Hrest]; subst.
  cbn [draw].
  destruct (negb (visible h (JS.to_int32 (y d) - Z.of_nat i))); [now apply IH|].
  destruct i as [|i]; [congruence|]. unfold bind, ret.
  destruct (IH g Hrest) as [Hs Hf]. split.
  - destruct (draw L h col d offsets g) as [rest g2]. exact Hs.
  - intros g2. specialize (Hf g2).
    destruct (draw L h col d offsets g) as [rest g3].
    destruct (draw L h col d offsets g2) as [rest2 g4]. cbn [fst] in *. now rewrite Hf.
Qed.

Lemma seq_tail_nonzero n : Forall (fun i : nat => i <> 0%nat) (seq 1 n).
Proof. apply Forall_forall. intros i Hi. apply elem_of_seq in Hi. lia. Qed.

(** X4.  Drawing a column calls the generator exactly once when the
    head cell is on screen and not at all otherwise. *)
Theorem draw_draws (L h col : Z) (d : Drop) (g : RandomFn) :
  0 < L ->
  snd (draw L h col d (seq 0 (Z.to_nat L)) g)
  = if visible h (JS.to_int32 (y d)) then skip 1 g else g.
Proof.
  intros HL. destruct (Z.to_nat L) as [|n] eqn:En; [lia|].
  cbn [seq draw]. rewrite Z.sub_0_r.
  destruct (visible h (JS.to_int32 (y d))); cbn [negb].
  - unfold bind, ret. cbn [skip]. destruct (random g) as [r g1]. cbn [snd].
    destruct (draw_tail_fixed L h col d (seq 1 n) g1 (seq_tail_nonzero n)) as [Hs _].
    destruct (Qltb r (1 # 10)); destruct (draw L h col d (seq 1 n) g1); exact Hs.
  - now destruct (draw_tail_fixed L h col d (seq 1 n) g (seq_tail_nonzero n)).
Qed.

Lemma draw_draws_witness :
  snd (draw 3 24 1 sample_drop (seq 0 (Z.to_nat 3)) (mulberry32 42))
  = skip 1 (mulberry32 42).
Proof. apply (draw_draws 3 24 1 sample_drop (mulberry32 42)). lia. Defined.

(** ** The head cell *)

Lemma COLORS_head L : 2 <= L -> COLORS L 0 = rgb 255 255 255.
Proof.
  intros _. unfold COLORS, red, green, blue, ease, JS.round.
  rewrite gradient_t_head. reflexivity.
Qed.

(** X5.  The head of a trail is written in white either way: the
    colour chosen when the sparkle draw is below 0.1 is the colour
    entry 0 of the table already has, so what the drawing loop writes
    does not depend on the values the generator returns. *)
Theorem sparkle_invisible (L h col : Z) (d : Drop) (g1 g2 : RandomFn) :
  2 <= L ->
  fst (draw L h col d (seq 0 (Z.to_nat L)) g1)
  = fst (draw L h col d (seq 0 (Z.to_nat L)) g2).
Proof.
  intros HL. pose proof (COLORS_head L HL) as Hc.
  destruct (Z.to_nat L) as [|n]; [reflexivity|].
  cbn [seq draw]. rewrite Hc.
  destruct (negb (visible h (JS.to_int32 (y d) - Z.of_nat 0))).
  - destruct (draw_tail_fixed L h col d (seq 1 n) g2 (seq_tail_nonzero n)) as [_ Hf].
    apply Hf.
  - unfold bind, ret.
    destruct (random g1) as [r1 g1']. destruct (random g2) as [r2 g2'].
    destruct (draw_tail_fixed L h col d (seq 1 n) g2' (seq_tail_nonzero n)) as [_ Hf].
    specialize (Hf g1').
    destruct (Qltb r1 (1 # 10)), (Qltb r2 (1 # 10));
      destruct (draw L h col d (seq 1 n) g1'), (draw L h col d (seq 1 n) g2');
      cbn [fst] in *; now rewrite Hf.
Qed.

Lemma sparkle_invisible_witness :
  fst (draw 3 24 1 sample_drop (seq 0 (Z.to_nat 3)) (mulberry32 42))
  = fst (draw 3 24 1 sample_drop (seq 0 (Z.to_nat 3)) (HostRandom (fun _ => 0%Q) 0)).
Proof. apply (sparkle_invisible 3 24 1 sample_drop); lia. Defined.

(** ** Proper drops and well-formed frames *)

(** Closes [drop_ok] and [Forall drop_ok] on explicit drops. *)
Ltac solve_drops :=
  repeat first
    [ apply Forall_nil_2
    | apply Forall_cons_2
    | match goal with
      | |- drop_ok _ _ => unfold drop_ok; cbn [chars speed]
      | |- _ /\ _ => split
      | |- (_ <= _)%Q => unfold Qle; cbn; lia
      | |- (_ < _)%Q => unfold Qlt; cbn; lia
      | |- length _ = _ => reflexivity
      | |- (_ <= _)%Z => lia
      | |- (_ < _)%Z => unfold CHAR_LEN; cbn; lia
      end ].

Lemma skip_unit n : forall g, unit_source g -> unit_source (skip n g).
Proof.
  induction n as [|n IH]; intros g Hg; [exact Hg|].
  cbn [skip]. apply IH. now destruct (random_unit g Hg) as (_ & _ & ?).
Qed.

Lemma createDrop_ok L h randomStart g :
  unit_source g ->
  drop_ok L (fst (createDrop L h randomStart g))
  /\ unit_source (snd (createDrop L h randomStart g)).
Proof.
  intros Hg. split; [|rewrite createDrop_skip; now apply skip_unit].
  unfold createDrop, bind, ret.
  destruct (fresh_chars_spec (Z.to_nat L) g Hg) as (Hlen & Hall & Hg1).
  destruct (fresh_chars (Z.to_nat L) g) as [cs g1]. cbn [fst snd] in *.
  assert (Hspeed : forall g', unit_source g' ->
            ((3 # 10) <= (3 # 10) + fst (random g') * (7 # 10))%Q
            /\ ((3 # 10) + fst (random g') * (7 # 10) < 1)%Q).
  { intros g' Hg'. destruct (random_unit g' Hg') as (H0 & H1 & _). split; lra. }
  destruct randomStart.
  - destruct (random_unit g1 Hg1) as (_ & _ & Hg2).
    destruct (random g1) as [r1 g2]. cbn [snd] in Hg2.
    specialize (Hspeed g2 Hg2). destruct (random g2) as [r2 g3]. cbn [fst] in *.
    unfold drop_ok. cbn. tauto.
  - specialize (Hspeed g1 Hg1). destruct (random g1) as [r2 g3]. cbn [fst] in *.
    unfold drop_ok. cbn. tauto.
Qed.

Lemma store_ok cs i c :
  Forall (fun c => 0 <= c < CHAR_LEN) cs -> 0 <= c < CHAR_LEN ->
  length (store cs i c) = length cs
  /\ Forall (fun c => 0 <= c < CHAR_LEN) (store cs i c).
Proof.
  intros Hcs Hc. unfold store. destruct (i <? 0); [split; [reflexivity|exact Hcs]|].
  split; [apply length_insert|]. apply Forall_insert; [exact Hcs|].
  unfold JS.to_uint16. assert (CHAR_LEN = 82) by reflexivity.
  rewrite Z.mod_small; lia.
Qed.

Lemma advance_ok L h now col d g :
  drop_ok L d -> unit_source g ->
  drop_ok L (fst (fst (advance L h now col d g)))
  /\ unit_source (snd (advance L h now col d g)).
Proof.
  intros (Hlen & Hall & Hs0 & Hs1) Hg. unfold advance, bind, ret.
  destruct (Qle_bool (nextUpdate d) now); [|cbn; repeat split; assumption].
  destruct (random_unit g Hg) as (_ & _ & Hg1).
  destruct (random g) as [r g1]. cbn [snd] in Hg1.
  destruct (Qltb r (3 # 10)); [|cbn; repeat split; assumption].
  destruct (random_unit g1 Hg1) as (_ & _ & Hg2).
  destruct (random g1) as [s g2]. cbn [snd] in Hg2.
  destruct (randomChar_range g2 Hg2) as [Hc Hg3].
  destruct (randomChar g2) as [c g3]. cbn [fst snd] in *.
  destruct (store_ok (chars d) (JS.or0 (s * inject_Z L)) c Hall Hc) as [Hl' Hall'].
  unfold drop_ok. cbn [chars speed]. rewrite Hl'. tauto.
Qed.

Lemma advance_frame L w h now col d g :
  1 <= col <= w ->
  Forall (frame_tok w h) (snd (fst (advance L h now col d g))).
Proof.
  intros Hcol. unfold advance, bind, ret.
  destruct (Qle_bool (nextUpdate d) now); [|constructor].
  assert (He : Forall (frame_tok w h)
                 (if visible h (JS.to_int32 (y d) - L)
                  then [moveTo (JS.to_int32 (y d) - L) col; Space] else [])).
  { destruct (visible h (JS.to_int32 (y d) - L)) eqn:Ev; [|constructor].
    unfold visible in Ev. apply andb_true_iff in Ev as [H1 H2].
    apply Z.leb_le in H1, H2. repeat constructor; cbn; lia. }
  destruct (random g) as [r g1]. destruct (Qltb r (3 # 10)); [|exact He].
  destruct (random g1) as [s g2]. destruct (randomChar g2) as [c g3]. exact He.
Qed.

Lemma draw_frame L w h col d offsets : forall g,
  1 <= col <= w -> drop_ok L d ->
  Forall (fun i : nat => (i < Z.to_nat L)%nat) offsets ->
  Forall (frame_tok w h) (fst (draw L h col d offsets g)).
Proof.
  induction offsets as [|i offsets IH]; intros g Hcol Hd Hoff; [constructor|].
  inversion Hoff as [|? ? Hi Hrest]; subst. cbn [draw].
  destruct (visible h (JS.to_int32 (y d) - Z.of_nat i)) eqn:Ev; cbn [negb];
    [|now apply IH].
  unfold visible in Ev. apply andb_true_iff in Ev as [H1 H2]. apply Z.leb_le in H1, H2.
  pose proof Hd as (Hlen & Hall & _).
  destruct (lookup_lt_is_Some_2 (chars d) i ltac:(lia)) as [k Hk]. rewrite Hk.
  assert (Hkr : 0 <= k < CHAR_LEN).
  { rewrite Forall_forall in Hall. apply Hall. eapply list_elem_of_lookup_2. exact Hk. }
  unfold bind, ret.
  assert (Hcell : forall c, Forall (frame_tok w h)
            [moveTo (JS.to_int32 (y d) - Z.of_nat i) col; c; Glyph (Some k)] <->
            frame_tok w h c).
  { intros c. split.
    - intros H. inversion H as [|? ? _ H']; subst. now inversion H'.
    - intros H. repeat constructor; try assumption; cbn; lia. }
  destruct i as [|i].
  - destruct (random g) as [r g1].
    specialize (IH g1 Hcol Hd Hrest).
    destruct (Qltb r (1 # 10)); destruct (draw L h col d offsets g1) as [rest g2];
      cbn [fst] in *; apply Forall_app; (split; [apply Hcell; exact I|exact IH]).
  - specialize (IH g Hcol Hd Hrest). destruct (draw L h col d offsets g) as [rest g2].
    cbn [fst] in *. apply Forall_app. split; [apply Hcell; exact I|exact IH].
Qed.

Lemma recycle_ok L h d g :
  drop_ok L d -> unit_source g ->
  drop_ok L (fst (recycle L h d g)) /\ unit_source (snd (recycle L h d g)).
Proof.
  intros Hd Hg. unfold recycle. destruct (recycle_due L h d).
  - now apply createDrop_ok.
  - split; assumption.
Qed.

Lemma draw_unit L h col d offsets : forall g,
  unit_source g -> unit_source (snd (draw L h col d offsets g)).
Proof.
  induction offsets as [|i offsets IH]; intros g Hg; [exact Hg|].
  cbn [draw]. destruct (negb (visible h (JS.to_int32 (y d) - Z.of_nat i))); [now apply IH|].
  unfold bind, ret. destruct i as [|i].
  - destruct (random_unit g Hg) as (_ & _ & Hg1).
    destruct (random g) as [r g1]. cbn [snd] in Hg1. specialize (IH g1 Hg1).
    destruct (Qltb r (1 # 10)); destruct (draw L h col d offsets g1); exact IH.
  - specialize (IH g Hg). destruct (draw L h col d offsets g); exact IH.
Qed.

Lemma seq_below n : Forall (fun i : nat => (i < n)%nat) (seq 0 n).
Proof. apply Forall_forall. intros i Hi. apply elem_of_seq in Hi. lia. Qed.

(** What the body of the column loop keeps and what it writes. *)
Lemma render_column_ok L w h now x d g :
  Z.of_nat x < w -> drop_ok L d -> unit_source g ->
  drop_ok L (fst (fst (render_column L h now x d g)))
  /\ Forall (frame_tok w h) (snd (fst (render_column L h now x d g)))
  /\ unit_source (snd (render_column L h now x d g)).
Proof.
  intros Hx Hd Hg. unfold render_column, bind, ret.
  destruct (advance_ok L h now (Z.of_nat x + 1) d g Hd Hg) as [Hd1 Hg1].
  pose proof (advance_frame L w h now (Z.of_nat x + 1) d g ltac:(lia)) as Ho1.
  destruct (advance L h now (Z.of_nat x + 1) d g) as [[d1 o1] g1]. cbn [fst snd] in *.
  destruct (recycle_ok L h d1 g1 Hd1 Hg1) as [Hd2 Hg2].
  destruct (recycle L h d1 g1) as [d2 g2]. cbn [fst snd] in *.
  pose proof (draw_frame L w h (Z.of_nat x + 1) d2 (seq 0 (Z.to_nat L)) g2
                ltac:(lia) Hd2 (seq_below _)) as Ho2.
  pose proof (draw_unit L h (Z.of_nat x + 1) d2 (seq 0 (Z.to_nat L)) g2 Hg2) as Hg3.
  destruct (draw L h (Z.of_nat x + 1) d2 (seq 0 (Z.to_nat L)) g2) as [cells g3].
  cbn [fst snd] in *. split; [exact Hd2|]. split; [|exact Hg3].
  apply Forall_app. split; assumption.
Qed.

Lemma render_columns_ok L w h now xs : forall (ds : list Drop) g ds' out g',
  Forall (fun x : nat => Z.of_nat x < w) xs ->
  Forall (drop_ok L) ds -> unit_source g ->
  render_columns L h now xs ds g = (Some (ds', out), g') ->
  Forall (drop_ok L) ds' /\ Forall (frame_tok w h) out /\ unit_source g'.
Proof.
  induction xs as [|x xs IH]; intros ds g ds' out g' Hxs Hds Hg H.
  - cbn in H. injection H as <- <- <-. split; [exact Hds|]. split; [constructor|exact Hg].
  - inversion Hxs as [|? ? Hx Hrest]; subst.
    cbn [render_columns] in H. destruct (ds !! x) as [d|] eqn:Ed; [|discriminate].
    unfold bind, ret in H.
    assert (Hd : drop_ok L d).
    { rewrite Forall_forall in Hds. apply Hds. eapply list_elem_of_lookup_2. exact Ed. }
    destruct (render_column_ok L w h now x d g Hx Hd Hg) as (Hd2 & Ho & Hg1).
    destruct (render_column L h now x d g) as [[d2 o] g1]. cbn [fst snd] in *.
    destruct (render_columns L h now xs (<[x:=d2]> ds) g1) as [[[ds1 out1]|] g2] eqn:Er;
      [|discriminate].
    injection H as <- <- <-.
    destruct (IH _ _ _ _ _ Hrest (Forall_insert _ _ _ _ Hds Hd2) Hg1 Er) as (H1 & H2 & H3).
    split; [exact H1|]. split; [|exact H3]. apply Forall_app. split; assumption.
Qed.

Lemma seq_columns w : Forall (fun x : nat => Z.of_nat x < w) (seq 0 (Z.to_nat w)).
Proof. apply Forall_forall. intros x Hx. apply elem_of_seq in Hx. lia. Qed.

(** What a pass over proper drops returns. *)
Lemma render_pass_ok (L : Z) (now : Q) (e : Engine) (g : RandomFn) :
  length (drops e) = Z.to_nat (width e) ->
  Forall (drop_ok L) (drops e) ->
  unit_source g ->
  exists e' out g',
    render L now e g = (Some (e', out), g')
    /\ Forall (frame_tok (width e) (height e)) out
    /\ width e' = width e /\ height e' = height e
    /\ length (drops e') = Z.to_nat (width e')
    /\ Forall (drop_ok L) (drops e')
    /\ unit_source g'.
Proof.
  intros Hlen Hds Hg.
  destruct (render_well_formed L now e g Hlen) as (e' & out & g' & Hr & Hl).
  exists e', out, g'. split; [exact Hr|].
  unfold render, bind, ret in Hr.
  destruct (render_columns L (height e) now (seq 0 (Z.to_nat (width e))) (drops e) g)
    as [[[ds out1]|] g1] eqn:Er; [|discriminate].
  injection Hr as <- <- <-.
  destruct (render_columns_ok _ _ _ _ _ _ _ _ _ _ (seq_columns (width e)) Hds Hg Er)
    as (H1 & H2 & H3).
  cbn [width height drops] in *. tauto.
Qed.

(** X6.  A render pass over proper drops succeeds, and its single write
    only moves the cursor to cells of the screen (rows 1 to [height],
    columns 1 to [width]), sets colours, and prints glyphs of the
    alphabet and blanks; the drops it leaves are proper again and the
    generator is still within its range. *)
Theorem render_frame (L : Z) (now : Q) (e : Engine) (g : RandomFn) :
  length (drops e) = Z.to_nat (width e) ->
  Forall (drop_ok L) (drops e) ->
  unit_source g ->
  exists e' out g',
    render L now e g = (Some (e', out), g')
    /\ Forall (frame_tok (width e) (height e)) out
    /\ width e' = width e /\ height e' = height e
    /\ length (drops e') = Z.to_nat (width e')
    /\ Forall (drop_ok L) (drops e')
    /\ unit_source g'.
Proof. apply render_pass_ok. Qed.

Lemma render_frame_witness :
  exists e' out g',
    render 3 40 wide_engine (mulberry32 42) = (Some (e', out), g')
    /\ Forall (frame_tok 3 5) out.
Proof.
  destruct (render_frame 3 40 wide_engine (mulberry32 42))
    as (e' & out & g' & Hr & Hf & _).
  - reflexivity.
  - unfold wide_engine. cbn [drops]. solve_drops.
  - exact I.
  - exists e', out, g'. split; [exact Hr|exact Hf].
Defined.

(** ** Proper drops at all times *)

Lemma fresh_drops_ok L h n : forall g,
  unit_source g ->
  Forall (drop_ok L) (fst (fresh_drops L h n g))
  /\ unit_source (snd (fresh_drops L h n g)).
Proof.
  induction n as [|n IH]; intros g Hg; [split; [constructor|exact Hg]|].
  cbn [fresh_drops]. unfold bind, ret.
  destruct (createDrop_ok L h true g Hg) as [Hd Hg1].
  destruct (createDrop L h true g) as [d g1]. cbn [fst snd] in *.
  destruct (IH g1 Hg1) as [Hds Hg2].
  destruct (fresh_drops L h n g1) as [ds g2]. cbn [fst snd] in *.
  split; [constructor; assumption|exact Hg2].
Qed.

Lemma resized_drops_ok L h (oldDrops : list Drop) xs : forall g,
  Forall (drop_ok L) oldDrops -> unit_source g ->
  Forall (drop_ok L) (fst (resized_drops L h oldDrops xs g))
  /\ unit_source (snd (resized_drops L h oldDrops xs g)).
Proof.
  induction xs as [|x xs IH]; intros g Hold Hg; [split; [constructor|exact Hg]|].
  cbn [resized_drops]. unfold bind, ret.
  destruct (oldDrops !! x) as [d|] eqn:Ed.
  - assert (Hd : drop_ok L d).
    { rewrite Forall_forall in Hold. apply Hold. eapply list_elem_of_lookup_2. exact Ed. }
    destruct (IH g Hold Hg) as [Hds Hg2].
    destruct (resized_drops L h oldDrops xs g) as [ds g2]. cbn [fst snd] in *.
    split; [constructor; assumption|exact Hg2].
  - destruct (createDrop_ok L h true g Hg) as [Hd Hg1].
    destruct (createDrop L h true g) as [d g1]. cbn [fst snd] in *.
    destruct (IH g1 Hold Hg1) as [Hds Hg2].
    destruct (resized_drops L h oldDrops xs g1) as [ds g2]. cbn [fst snd] in *.
    split; [constructor; assumption|exact Hg2].
Qed.

Lemma step_healthy L F p ev : healthy L p -> healthy L (step L F p ev).
Proof.
  intros (Hwf & Hds & Hg). unfold step.
  destruct (status p); [|repeat split; assumption..].
  destruct ev as [now|columns rows| |].
  - unfold iteration. destruct (running (engine p)); [|repeat split; assumption].
    destruct (Qle_bool (frameTime F) (now - lastFrame (engine p)));
      [|repeat split; assumption].
    destruct (render_pass_ok L now (engine p) (rng p) Hwf Hds Hg)
      as (e' & out & g' & Hr & _ & _ & _ & Hl & Hds' & Hg').
    rewrite Hr. repeat split; assumption.
  - unfold handle_resize, on_resize, bind, ret.
    destruct (Z.eqb_spec (JS.or_default columns 80) (width (engine p))) as [E|_]; cbn [negb].
    + split; [|split; assumption]. unfold well_formed. cbn. rewrite E. exact Hwf.
    + destruct (array_length_ok (JS.or_default columns 80));
        [|repeat split; assumption].
      pose proof (resized_drops_seq L (height (engine p)) (drops (engine p))
                    (Z.to_nat (JS.or_default columns 80)) 0%nat (rng p)) as Hs.
      cbv zeta in Hs. destruct Hs as (Hl & _).
      destruct (resized_drops_ok L (height (engine p)) (drops (engine p))
                  (seq 0 (Z.to_nat (JS.or_default columns 80))) (rng p) Hds Hg)
        as [Hds' Hg'].
      destruct (resized_drops L (height (engine p)) (drops (engine p)) _ (rng p)) as [ds g'].
      cbn [fst snd] in *. repeat split; assumption.
  - repeat split; assumption.
  - repeat split; assumption.
Qed.

Lemma run_events_healthy L F evs : forall p,
  healthy L p -> healthy L (run_events L F p evs).
Proof.
  induction evs as [|ev evs IH]; intros p Hp; [exact Hp|].
  cbn. apply IH. now apply step_healthy.
Qed.

Lemma launch_healthy L columns rows g p :
  unit_source g -> launch L columns rows g = Some p -> healthy L p.
Proof.
  intros Hg Hl. split; [now apply launch_well_formed in Hl|].
  unfold launch, construct, bind, ret in Hl.
  destruct (array_length_ok (JS.or_default columns 80)); [|discriminate].
  destruct (fresh_drops_ok L (JS.or_default rows 24)
              (Z.to_nat (JS.or_default columns 80)) g Hg) as [Hds Hg1].
  destruct (fresh_drops L (JS.or_default rows 24) _ g) as [ds g1].
  injection Hl as <-. split; assumption.
Qed.

(** X7.  At every moment of every run whose random source stays in
    [0, 1), each column holds a drop whose glyph buffer has exactly
    [TRAIL_LENGTH] entries, all of them indices into the alphabet, and
    whose speed lies in [0.3, 1); the drop array has one slot per
    column. *)
Theorem drops_always_proper (args : Args) (host : nat -> Q) (columns rows : option Z)
  (evs : list Event) (p : Process) :
  unit_host host ->
  play args host columns rows evs = Some p ->
  length (drops (engine p)) = Z.to_nat (width (engine p))
  /\ Forall (drop_ok (trail_length args)) (drops (engine p)).
Proof.
  intros Hh Hp. unfold play in Hp.
  destruct (main args host columns rows) as [p0|] eqn:Em; [|discriminate].
  injection Hp as <-. unfold main in Em.
  destruct (array_length_ok (trail_length args)); [|discriminate].
  assert (Hg : unit_source (make_random (seed args) host)).
  { unfold make_random. destruct (seed args); [exact I|exact Hh]. }
  pose proof (launch_healthy _ _ _ _ _ Hg Em) as H0.
  destruct (run_events_healthy (trail_length args) (target_fps args) evs p0 H0)
    as (Hwf & Hds & _).
  split; assumption.
Qed.

Lemma drops_always_proper_witness :
  exists p,
    play (mkArgs None None (Some 3)) (fun _ => 1 # 2) (Some 2) (Some 5)
         [Tick 40; Resize (Some 4) (Some 6); Tick 80] = Some p
    /\ Forall (drop_ok 3) (drops (engine p)).
Proof.
  eexists. split; [vm_compute; reflexivity|].
  eapply (drops_always_proper (mkArgs None None (Some 3)) (fun _ => 1 # 2) (Some 2) (Some 5)
            [Tick 40; Resize (Some 4) (Some 6); Tick 80]).
  - intros k. split; [unfold Qle; cbn; lia|unfold Qlt; cbn; lia].
  - vm_compute. reflexivity.
Defined.

(** ** Positions within a pass *)

(** X8.  In a render pass no drop moves up except to restart at
    [-TRAIL_LENGTH], and once the pass is over every drop is at or
    above row [height + TRAIL_LENGTH]: none is left waiting to be
    recycled. *)
Theorem render_positions (L : Z) (now : Q) (e : Engine) (g : RandomFn) :
  length (drops e) = Z.to_nat (width e) ->
  0 <= 2 * L + height e ->
  exists e' out g',
    render L now e g = (Some (e', out), g')
    /\ forall (x : nat) (d : Drop), drops e !! x = Some d ->
       exists d', drops e' !! x = Some d'
                  /\ y d' <= height e + L
                  /\ (y d <= y d' \/ y d' = - L).
Proof.
  intros Hlen Hh. unfold render, bind, ret.
  destruct (render_columns_seq L (height e) now (Z.to_nat (width e)) 0%nat (drops e) g)
    as (ds' & out & g' & Hr & _ & _ & Hin); [lia|].
  rewrite Hr. eexists _, out, g'. split; [reflexivity|]. cbn [drops].
  intros x d Hd. destruct (Hin x d) as [gx Hx]; [|exact Hd|].
  { apply lookup_lt_Some in Hd. lia. }
  eexists. split; [exact Hx|].
  exact (render_column_position L (height e) now x d gx Hh).
Qed.

Lemma render_positions_witness :
  exists e' out g', render 3 40 wide_engine (mulberry32 42) = (Some (e', out), g').
Proof.
  destruct (render_positions 3 40 wide_engine (mulberry32 42))
    as (e' & out & g' & Hr & _); [reflexivity|cbn; lia|].
  exists e', out, g'. exact Hr.
Defined.

(** ** Fall cadence *)



(** ** The trace of a run *)

Lemma advance_cells L h now col d g :
  Forall (fun t => is_cell t = true) (snd (fst (advance L h now col d g))).
Proof.
  unfold advance, bind, ret. destruct (Qle_bool (nextUpdate d) now); [|constructor].
  destruct (random g) as [r g1]. destruct (Qltb r (3 # 10)).
  - destruct (random g1) as [s g2]. destruct (randomChar g2) as [c g3]. cbn [fst snd].
    destruct (visible h (JS.to_int32 (y d) - L)); repeat constructor.
  - cbn [fst snd]. destruct (visible h (JS.to_int32 (y d) - L)); repeat constructor.
Qed.

Lemma draw_cells L h col d offsets : forall g,
  Forall (fun t => is_cell t = true) (fst (draw L h col d offsets g)).
Proof.
  induction offsets as [|i offsets IH]; intros g; [constructor|].
  cbn [draw]. destruct (negb (visible h (JS.to_int32 (y d) - Z.of_nat i))); [apply IH|].
  unfold bind, ret. destruct i as [|i].
  - destruct (random g) as [r g1]. specialize (IH g1).
    destruct (Qltb r (1 # 10)); destruct (draw L h col d offsets g1) as [rest g2];
      cbn [fst] in *; repeat constructor; exact IH.
  - specialize (IH g). destruct (draw L h col d offsets g) as [rest g2].
    cbn [fst] in *. repeat constructor. exact IH.
Qed.

Lemma render_column_cells L h now x d g :
  Forall (fun t => is_cell t = true) (snd (fst (render_column L h now x d g))).
Proof.
  unfold render_column, bind, ret.
  pose proof (advance_cells L h now (Z.of_nat x + 1) d g) as Ha.
  destruct (advance L h now (Z.of_nat x + 1) d g) as [[d1 o1] g1]. cbn [fst snd] in *.
  destruct (recycle L h d1 g1) as [d2 g2].
  pose proof (draw_cells L h (Z.of_nat x + 1) d2 (seq 0 (Z.to_nat L)) g2) as Hd.
  destruct (draw L h (Z.of_nat x + 1) d2 (seq 0 (Z.to_nat L)) g2) as [cells g3].
  cbn [fst snd] in *. apply Forall_app. split; assumption.
Qed.

Lemma render_columns_cells L h now xs : forall (ds : list Drop) g ds' out g',
  render_columns L h now xs ds g = (Some (ds', out), g') ->
  Forall (fun t => is_cell t = true) out.
Proof.
  induction xs as [|x xs IH]; intros ds g ds' out g' H.
  - cbn in H. injection H as _ <- _. constructor.
  - cbn [render_columns] in H. destruct (ds !! x) as [d|]; [|discriminate].
    unfold bind, ret in H.
    pose proof (render_column_cells L h now x d g) as Hc.
    destruct (render_column L h now x d g) as [[d2 o] g1]. cbn [fst snd] in *.
    destruct (render_columns L h now xs (<[x:=d2]> ds) g1) as [[[ds1 out1]|] g2] eqn:Er;
      [|discriminate].
    injection H as _ <- _. apply Forall_app. split; [exact Hc|exact (IH _ _ _ _ _ Er)].
Qed.

(** What [render] hands back besides the drops: the same size, frame
    time and running flag, and a write made of cells only. *)
Lemma render_keeps L now e g e' out g' :
  render L now e g = (Some (e', out), g') ->
  width e' = width e /\ height e' = height e /\ lastFrame e' = lastFrame e
  /\ running e' = running e /\ Forall (fun t => is_cell t = true) out.
Proof.
  unfold render, bind, ret. intros H.
  destruct (render_columns L (height e) now (seq 0 (Z.to_nat (width e))) (drops e) g)
    as [[[ds out1]|] g1] eqn:Er; [|discriminate].
  injection H as <- <- _. repeat split. exact (render_columns_cells _ _ _ _ _ _ _ _ _ Er).
Qed.

Lemma on_resize_keeps L columns rows e g e' out g' :
  on_resize L columns rows e g = (Some (e', out), g') ->
  lastFrame e' = lastFrame e /\ running e' = running e /\ out = [CLEAR_SCREEN].
Proof.
  intros H. split; [exact (on_resize_lastFrame _ _ _ _ _ _ _ _ H)|].
  split; [|exact (on_resize_out _ _ _ _ _ _ _ _ H)].
  unfold on_resize, bind, ret in H.
  destruct (negb (JS.or_default columns 80 =? width e)).
  - destruct (array_length_ok (JS.or_default columns 80)); [|discriminate].
    destruct (resized_drops L (height e) (drops e) _ g). injection H as <- _ _. reflexivity.
  - injection H as <- _ _. reflexivity.
Qed.

(** A property kept by every step holds after any sequence of events. *)
Lemma run_events_invariant L F (P : Process -> Prop) :
  (forall p ev, P p -> P (step L F p ev)) ->
  forall evs p, P p -> P (run_events L F p evs).
Proof.
  intros Hstep evs. induction evs as [|ev evs IH]; intros p Hp; [exact Hp|].
  cbn. apply IH, Hstep, Hp.
Qed.

Lemma play_invariant (P : Process -> Prop) args host columns rows evs p :
  (forall p0, launch (trail_length args) columns rows (make_random (seed args) host)
              = Some p0 -> P p0) ->
  (forall q ev, P q -> P (step (trail_length args) (target_fps args) q ev)) ->
  play args host columns rows evs = Some p -> P p.
Proof.
  intros H0 Hstep Hp. unfold play in Hp.
  destruct (main args host columns rows) as [p0|] eqn:Em; [|discriminate].
  injection Hp as <-. unfold main in Em.
  destruct (array_length_ok (trail_length args)); [|discriminate].
  apply run_events_invariant; [exact Hstep|]. now apply H0.
Qed.



(** ** Starting and staying alive *)

(** X11.  Loading the program fails exactly when the trail length or
    the terminal width is not a valid array length (negative, or 2^32
    and above); in every other case the engine is built, alive, with one
    drop per column. *)
Theorem main_fails_iff (args : Args) (host : nat -> Q) (columns rows : option Z) :
  (main args host columns rows = None <->
   ~ (0 <= trail_length args < 4294967296
      /\ 0 <= JS.or_default columns 80 < 4294967296))
  /\ (forall p, main args host columns rows = Some p ->
        status p = Alive
        /\ width (engine p) = JS.or_default columns 80
        /\ height (engine p) = JS.or_default rows 24
        /\ length (drops (engine p)) = Z.to_nat (JS.or_default columns 80)).
Proof.
  split.
  - split.
    + intros Hn [HL Hw].
      destruct (main_starts args host columns rows HL Hw) as (p & Hp & _). congruence.
    + intros Hinv. unfold main, launch, construct, array_length_ok, bind, ret.
      destruct (Z.leb_spec 0 (trail_length args)); cbn [andb]; [|reflexivity].
      destruct (Z.ltb_spec (trail_length args) 4294967296); [|reflexivity].
      destruct (Z.leb_spec 0 (JS.or_default columns 80)); cbn [andb]; [|reflexivity].
      destruct (Z.ltb_spec (JS.or_default columns 80) 4294967296); [|reflexivity].
      exfalso. apply Hinv. lia.
  - intros p Hp. unfold main in Hp.
    destruct (array_length_ok (trail_length args)); [|discriminate].
    pose proof (launch_well_formed _ _ _ _ _ Hp) as Hwf.
    destruct (launch_frames _ _ _ _ _ Hp) as (_ & Ha & _).
    unfold launch, construct, bind, ret in Hp.
    destruct (array_length_ok (JS.or_default columns 80)); [|discriminate].
    destruct (fresh_drops _ _ _ _) as [ds g1].
    injection Hp as <-. unfold well_formed in Hwf. cbn in *. tauto.
Qed.

(** While the process is alive its running flag is set. *)
Lemma step_running L F q ev :
  (status q = Alive -> running (engine q) = true) ->
  status (step L F q ev) = Alive -> running (engine (step L F q ev)) = true.
Proof.
  intros Hq. unfold step. destruct (status q) eqn:Es; try (rewrite Es; discriminate).
  specialize (Hq eq_refl). destruct ev as [now|c r| |]; try discriminate.
  - unfold iteration. rewrite Hq.
    destruct (Qle_bool _ _); [|intros _; exact Hq].
    destruct (render _ now (engine q) (rng q)) as [[[e' out]|] g'] eqn:Er; [|discriminate].
    destruct (render_keeps _ _ _ _ _ _ _ Er) as (_ & _ & _ & Hr & _).
    intros _. cbn. congruence.
  - unfold handle_resize.
    destruct (on_resize _ c r (engine q) (rng q)) as [[[e' out]|] g'] eqn:Er;
      [|discriminate].
    destruct (on_resize_keeps _ _ _ _ _ _ _ _ Er) as (_ & Hr & _).
    intros _. cbn. congruence.
Qed.

Lemma launch_running L columns rows g p :
  launch L columns rows g = Some p ->
  running (engine p) = true /\ lastFrame (engine p) = 0%Q.
Proof.
  unfold launch, construct, bind, ret.
  destruct (array_length_ok (JS.or_default columns 80)); [|discriminate].
  destruct (fresh_drops _ _ _ _) as [ds g1]. intros [= <-]. split; reflexivity.
Qed.

(** X12.  With a valid trail length and valid terminal widths, the
    program starts and, whatever turns of the loop and resizes follow,
    it is still running as long as no signal has arrived: neither a
    render pass nor a resize can make it fail or exit. *)
Theorem runs_until_signalled (args : Args) (host : nat -> Q) (columns rows : option Z)
  (evs : list Event) :
  0 <= trail_length args < 4294967296 ->
  0 <= JS.or_default columns 80 < 4294967296 ->
  Forall benign evs ->
  exists p, play args host columns rows evs = Some p
            /\ status p = Alive /\ running (engine p) = true.
Proof.
  intros HL Hw Hevs. unfold play.
  destruct (main_starts args host columns rows HL Hw) as (p0 & Hp0 & Hwf & Ha).
  rewrite Hp0. eexists. split; [reflexivity|].
  destruct (alive_until_signal (trail_length args) (target_fps args) evs p0 Hwf Ha Hevs)
    as [_ Hal].
  split; [exact Hal|].
  revert Hal.
  apply (run_events_invariant (trail_length args) (target_fps args)
           (fun q => status q = Alive -> running (engine q) = true)).
  - intros q ev Hq. now apply step_running.
  - intros _. unfold main in Hp0.
    destruct (array_length_ok (trail_length args)); [|discriminate].
    now apply launch_running in Hp0.
Qed.

Lemma runs_until_signalled_witness :
  exists p,
    play (mkArgs (Some 42) None (Some 3)) (fun _ => 0%Q) (Some 2) (Some 5)
         [Tick 40; Resize (Some 3) (Some 6); Tick 80] = Some p
    /\ status p = Alive /\ running (engine p) = true.
Proof.
  apply (runs_until_signalled (mkArgs (Some 42) None (Some 3)) (fun _ => 0%Q)
           (Some 2) (Some 5) [Tick 40; Resize (Some 3) (Some 6); Tick 80]).
  - cbn. lia.
  - cbn. lia.
  - repeat constructor; cbn; lia.
Defined.

(** ** The frame loop *)

Lemma frameTime_pos F : 0 < F -> (0 < frameTime F)%Q.
Proof.
  intros HF. unfold frameTime. apply Qlt_shift_div_l.
  - change 0%Q with (inject_Z 0). rewrite <- Zlt_Qlt. exact HF.
  - lra.
Qed.

(** X13.  With a positive frame rate, after each turn of the loop that
    leaves the process alive the last frame is less than one frame time
    old: a turn taken a frame time or more after the last frame always
    renders. *)
Theorem no_starvation (args : Args) (host : nat -> Q) (columns rows : option Z)
  (evs : list Event) (now : Q) (p : Process) :
  0 < target_fps args ->
  play args host columns rows (evs ++ [Tick now]) = Some p ->
  status p = Alive ->
  (now - lastFrame (engine p) < 1000 / inject_Z (target_fps args))%Q.
Proof.
  intros HF Hp Ha. change (1000 / inject_Z (target_fps args))%Q with (frameTime (target_fps args)).
  pose proof (frameTime_pos _ HF) as Hpos.
  unfold play in Hp.
  destruct (main args host columns rows) as [p0|] eqn:Em; [|discriminate].
  injection Hp as <-. rewrite run_events_app in Ha |- *.
  set (q := run_events (trail_length args) (target_fps args) p0 evs) in *.
  assert (Hq : status q = Alive -> running (engine q) = true).
  { subst q. apply (run_events_invariant (trail_length args) (target_fps args)
                      (fun q => status q = Alive -> running (engine q) = true)).
    - intros q' ev Hq'. now apply step_running.
    - intros _. unfold main in Em.
      destruct (array_length_ok (trail_length args)); [|discriminate].
      now apply launch_running in Em. }
  cbn [run_events fold_left] in *. unfold step in *.
  destruct (status q) eqn:Es; [|rewrite Es in Ha; discriminate..].
  specialize (Hq eq_refl). unfold iteration in *. rewrite Hq in *.
  destruct (Qle_bool (frameTime (target_fps args)) (now - lastFrame (engine q))) eqn:Eq.
  - destruct (render _ now (engine q) (rng q)) as [[[e' out]|] g'] eqn:Er; [|discriminate].
    cbn [engine lastFrame]. lra.
  - now apply Qle_bool_false in Eq.
Qed.

Lemma no_starvation_witness :
  exists p,
    play (mkArgs (Some 42) None (Some 3)) (fun _ => 0%Q) (Some 2) (Some 5)
         ([Tick 40] ++ [Tick 50]) = Some p
    /\ (50 - lastFrame (engine p) < 1000 / inject_Z 30)%Q.
Proof.
  eexists. split; [vm_compute; reflexivity|].
  apply (no_starvation (mkArgs (Some 42) None (Some 3)) (fun _ => 0%Q) (Some 2) (Some 5)
           [Tick 40] 50).
  - reflexivity.
  - vm_compute. reflexivity.
  - reflexivity.
Defined.

(** X14.  No frame is rendered before one frame time has passed on the
    clock: the first call of [render] in a run comes at a reading of
    at least [1000 / TARGET_FPS]. *)
Theorem first_frame (args : Args) (host : nat -> Q) (columns rows : option Z)
  (evs : list Event) (p : Process) (t : Q) :
  play args host columns rows evs = Some p ->
  frames p !! 0%nat = Some t ->
  (1000 / inject_Z (target_fps args) <= t)%Q.
Proof.
  intros Hp. change (1000 / inject_Z (target_fps args))%Q with (frameTime (target_fps args)).
  revert t.
  apply (play_invariant (fun p =>
    (frames p = [] -> lastFrame (engine p) = 0%Q)
    /\ forall t, frames p !! 0%nat = Some t -> (frameTime (target_fps args) <= t)%Q)
    args host columns rows evs p); [| |exact Hp].
  - intros p0 Hl. destruct (launch_frames _ _ _ _ _ Hl) as (Hf & _).
    destruct (launch_running _ _ _ _ _ Hl) as [_ Hlf].
    rewrite Hf. split; [intros _; exact Hlf|discriminate].
  - intros q ev [H0 H1]. unfold step. destruct (status q); [|split; assumption..].
    destruct ev as [now|c r| |].
    + unfold iteration. destruct (running (engine q)); [|split; assumption].
      destruct (Qle_bool (frameTime (target_fps args)) (now - lastFrame (engine q))) eqn:Eq;
        [|split; assumption].
      destruct (render _ now (engine q) (rng q)) as [[[e' out]|] g'];
        [|split; assumption].
      cbn [frames engine lastFrame]. split.
      * intros Hnil. now apply app_eq_nil in Hnil as [_ ?].
      * intros t Ht. destruct (frames q) as [|t0 ts] eqn:Ef.
        -- cbn in Ht. injection Ht as <-. apply Qle_bool_iff in Eq.
           rewrite (H0 eq_refl) in Eq. lra.
        -- cbn in Ht. apply H1. exact Ht.
    + unfold handle_resize.
      destruct (on_resize _ c r (engine q) (rng q)) as [[[e' out]|] g'] eqn:Er;
        [|split; assumption].
      destruct (on_resize_keeps _ _ _ _ _ _ _ _ Er) as (Hlf & _ & _).
      cbn [frames engine]. split; [|exact H1]. intros Hnil. rewrite Hlf. now apply H0.
    + split; assumption.
    + split; assumption.
Qed.

Lemma first_frame_witness :
  (1000 / inject_Z 30 <= 40)%Q.
Proof.
  eapply (first_frame (mkArgs (Some 42) None (Some 3)) (fun _ => 0%Q) (Some 2) (Some 5)
            [Tick 10; Tick 40; Tick 80]).
  - vm_compute. reflexivity.
  - reflexivity.
Defined.

Lemma frameTime_neg F : F < 0 -> (frameTime F < 0)%Q.
Proof.
  intros HF. destruct F as [|f|f]; try lia.
  unfold frameTime, Qdiv, Qinv, Qmult, Qlt, inject_Z. cbn. lia.
Qed.

Lemma uncapped_ticks L F ts : forall q,
  F < 0 ->
  well_formed q -> status q = Alive -> running (engine q) = true ->
  (forall t, ts !! 0%nat = Some t -> (lastFrame (engine q) <= t)%Q) ->
  (forall (i : nat) t1 t2, ts !! i = Some t1 -> ts !! S i = Some t2 -> (t1 <= t2)%Q) ->
  frames (run_events L F q (map Tick ts)) = frames q ++ ts.
Proof.
  induction ts as [|t ts IH]; intros q HF Hwf Ha Hr Hhead Hmono.
  - cbn. now rewrite app_nil_r.
  - cbn [map run_events fold_left]. unfold step at 2. rewrite Ha.
    unfold iteration. rewrite Hr.
    assert (Hq : Qle_bool (frameTime F) (t - lastFrame (engine q)) = true).
    { apply Qle_bool_iff. pose proof (frameTime_neg F HF). specialize (Hhead t eq_refl). lra. }
    rewrite Hq.
    destruct (render_well_formed L t (engine q) (rng q) Hwf) as (e' & out & g' & Hrd & Hl).
    rewrite Hrd. destruct (render_keeps _ _ _ _ _ _ _ Hrd) as (_ & _ & _ & Hrun & _).
    change (fold_left (step L F) (map Tick ts) ?p) with (run_events L F p (map Tick ts)).
    rewrite IH.
    + cbn [frames]. now rewrite <- app_assoc.
    + exact HF.
    + exact Hl.
    + reflexivity.
    + cbn. congruence.
    + cbn [engine lastFrame]. intros t2 Ht2. exact (Hmono 0%nat t t2 eq_refl Ht2).
    + intros i t1 t2 H1 H2. exact (Hmono (S i) t1 t2 H1 H2).
Qed.

(** X15.  A negative frame rate switches the pacing off: on a clock
    that starts at or after 0 and never runs backwards, every turn of
    the loop renders, however close to the previous one. *)
Theorem negative_fps_uncapped (args : Args) (host : nat -> Q) (columns rows : option Z)
  (ts : list Q) (p : Process) :
  target_fps args < 0 ->
  (forall t, ts !! 0%nat = Some t -> (0 <= t)%Q) ->
  (forall (i : nat) t1 t2, ts !! i = Some t1 -> ts !! S i = Some t2 -> (t1 <= t2)%Q) ->
  play args host columns rows (map Tick ts) = Some p ->
  frames p = ts.
Proof.
  intros HF H0 Hmono Hp. unfold play in Hp.
  destruct (main args host columns rows) as [p0|] eqn:Em; [|discriminate].
  injection Hp as <-. unfold main in Em.
  destruct (array_length_ok (trail_length args)); [|discriminate].
  destruct (launch_frames _ _ _ _ _ Em) as (Hf & Ha & _).
  destruct (launch_running _ _ _ _ _ Em) as [Hr Hlf].
  rewrite (uncapped_ticks (trail_length args) (target_fps args) ts p0 HF
             (launch_well_formed _ _ _ _ _ Em) Ha Hr).
  - now rewrite Hf.
  - intros t Ht. rewrite Hlf. now apply H0.
  - exact Hmono.
Qed.

Lemma negative_fps_uncapped_witness :
  exists p,
    play (mkArgs (Some 42) (Some (-5)) (Some 3)) (fun _ => 0%Q) (Some 2) (Some 5)
         (map Tick [1 # 2; 1; 1]%Q) = Some p
    /\ frames p = [1 # 2; 1; 1]%Q.
Proof.
  eexists. split; [vm_compute; reflexivity|].
  apply (negative_fps_uncapped (mkArgs (Some 42) (Some (-5)) (Some 3)) (fun _ => 0%Q)
           (Some 2) (Some 5) [1 # 2; 1; 1]%Q).
  - reflexivity.
  - intros t [= <-]. unfold Qle. cbn. lia.
  - intros [|[|[|i]]] t1 t2 H1 H2; cbn in H1, H2; try discriminate;
      injection H1 as <-; injection H2 as <-; unfold Qle; cbn; lia.
  - vm_compute. reflexivity.
Defined.

(** ** Columns added by a resize *)

Lemma createDrop_start L h g :
  0 < h <= 2147483648 -> unit_source g ->
  - h < y (fst (createDrop L h true g)) <= 0
  /\ nextUpdate (fst (createDrop L h true g)) = 0%Q.
Proof.
  intros Hh Hg. unfold createDrop, bind, ret.
  destruct (fresh_chars_spec (Z.to_nat L) g Hg) as (_ & _ & Hg1).
  destruct (fresh_chars (Z.to_nat L) g) as [cs g1]. cbn [snd] in Hg1.
  destruct (random_unit g1 Hg1) as (H0 & H1 & _).
  destruct (random g1) as [r1 g2]. cbn [fst] in *.
  destruct (random g2) as [r2 g3]. cbn [fst y nextUpdate].
  pose proof (floor_scale r1 h H0 H1 ltac:(lia)) as Hf.
  rewrite or0_floor; [split; [lia|reflexivity]| |lia].
  apply Qmult_le_0_compat; [exact H0|].
  change 0%Q with (inject_Z 0). rewrite <- Zle_Qle. lia.
Qed.

Lemma resized_drops_fresh L h (oldDrops : list Drop) n : forall a g,
  0 < h <= 2147483648 -> unit_source g ->
  forall (k : nat) (d : Drop), (k < n)%nat ->
    oldDrops !! (a + k)%nat = None ->
    fst (resized_drops L h oldDrops (seq a n) g) !! k = Some d ->
    - h < y d <= 0 /\ nextUpdate d = 0%Q.
Proof.
  induction n as [|n IH]; intros a g Hh Hg k d Hk Hnone Hd; [lia|].
  cbn [seq resized_drops] in Hd. unfold bind, ret in Hd.
  destruct (oldDrops !! a) as [d0|] eqn:Ea.
  - destruct (resized_drops L h oldDrops (seq (S a) n) g) as [ds g'] eqn:Er.
    cbn [fst] in Hd. destruct k as [|k].
    + rewrite Nat.add_0_r in Hnone. congruence.
    + cbn in Hd. apply (IH (S a) g Hh Hg k d); [lia| |now rewrite Er].
      now rewrite <- Nat.add_succ_comm in Hnone.
  - destruct (createDrop_ok L h true g Hg) as [_ Hg1].
    pose proof (createDrop_start L h g Hh Hg) as Hs.
    destruct (createDrop L h true g) as [d0 g1]. cbn [fst snd] in *.
    destruct (resized_drops L h oldDrops (seq (S a) n) g1) as [ds g'] eqn:Er.
    cbn [fst] in Hd. destruct k as [|k].
    + cbn in Hd. injection Hd as <-. exact Hs.
    + cbn in Hd. apply (IH (S a) g1 Hh Hg1 k d); [lia| |now rewrite Er].
      now rewrite <- Nat.add_succ_comm in Hnone.
Qed.

(** X16.  The drops a resize makes for added columns are placed with
    the height the terminal had before the resize: each starts at a row
    in [(-old height, 0]], above the screen or at its edge, and is due
    at once ([nextUpdate = 0]). *)
Theorem resize_new_columns (L : Z) (columns rows : option Z) (e e' : Engine)
  (g g' : RandomFn) (out : list Tok) (x : nat) (d : Drop) :
  length (drops e) = Z.to_nat (width e) ->
  0 < height e <= 2147483648 ->
  unit_source g ->
  on_resize L columns rows e g = (Some (e', out), g') ->
  (Z.to_nat (width e) <= x)%nat ->
  drops e' !! x = Some d ->
  - height e < y d <= 0 /\ nextUpdate d = 0%Q.
Proof.
  intros Hlen Hh Hg Hr Hx Hd. unfold on_resize, bind, ret in Hr.
  destruct (negb (JS.or_default columns 80 =? width e)).
  - destruct (array_length_ok (JS.or_default columns 80)); [|discriminate].
    pose proof (resized_drops_seq L (height e) (drops e)
                  (Z.to_nat (JS.or_default columns 80)) 0%nat g) as Hs.
    cbv zeta in Hs. destruct Hs as (Hl & _).
    pose proof (resized_drops_fresh L (height e) (drops e)
                  (Z.to_nat (JS.or_default columns 80)) 0%nat g Hh Hg x d) as Hf.
    destruct (resized_drops L (height e) (drops e) _ g) as [ds g1].
    injection Hr as <- _ _. cbn [fst drops] in *.
    apply Hf; [|apply lookup_ge_None; cbn; lia|exact Hd].
    apply lookup_lt_Some in Hd. lia.
  - injection Hr as <- _ _. cbn [drops] in Hd. apply lookup_lt_Some in Hd. lia.
Qed.

Lemma resize_new_columns_witness :
  exists e' out g' d,
    on_resize 3 (Some 4) (Some 9) wide_engine (mulberry32 42) = (Some (e', out), g')
    /\ drops e' !! 3%nat = Some d
    /\ - 5 < y d <= 0 /\ nextUpdate d = 0%Q.
Proof.
  do 4 eexists. split; [vm_compute; reflexivity|]. split; [vm_compute; reflexivity|].
  eapply (resize_new_columns 3 (Some 4) (Some 9) wide_engine _ (mulberry32 42) _ _ 3%nat).
  - reflexivity.
  - cbn. lia.
  - exact I.
  - vm_compute. reflexivity.
  - cbn. lia.
  - vm_compute. reflexivity.
Defined.

(** ** The argument parser *)

Section ParserFacts.

Variable parseInt : string -> option Z.

Lemma parse_arg_insert p (r : ParsedArgs) arg :
  parse_arg parseInt p r arg
  = match Map_get (arg_key p arg) (definitions p) with
    | None => r
    | Some def => <[arg_key p arg := arg_value parseInt def (snd (split_arg arg))]> r
    end.
Proof.
  unfold parse_arg, arg_key, arg_value.
  destruct (Map_get _ (definitions p)) as [def|]; [|reflexivity].
  destruct (type def); reflexivity.
Qed.

(** Two results that differ at most at [k] still do after one more
    argument, and agree altogether once that argument sets [k]. *)
Lemma parse_arg_agree p k (r1 r2 : ParsedArgs) arg :
  delete k r1 = delete k r2 ->
  delete k (parse_arg parseInt p r1 arg) = delete k (parse_arg parseInt p r2 arg).
Proof.
  intros H. rewrite !parse_arg_insert.
  destruct (Map_get (arg_key p arg) (definitions p)) as [def|]; [|exact H].
  destruct (decide (k = arg_key p arg)) as [->|Hne].
  - now rewrite !delete_insert_eq.
  - rewrite !delete_insert_ne by exact Hne. now rewrite H.
Qed.

Lemma parse_arg_settles p (r1 r2 : ParsedArgs) arg :
  delete (arg_key p arg) r1 = delete (arg_key p arg) r2 ->
  is_Some (Map_get (arg_key p arg) (definitions p)) ->
  parse_arg parseInt p r1 arg = parse_arg parseInt p r2 arg.
Proof.
  intros H [def Hdef]. rewrite !parse_arg_insert, Hdef.
  rewrite <- (insert_delete_eq r1), <- (insert_delete_eq r2). now rewrite H.
Qed.

Lemma fold_parse_agree p k args0 : forall r1 r2 : ParsedArgs,
  delete k r1 = delete k r2 ->
  delete k (fold_left (parse_arg parseInt p) args0 r1)
  = delete k (fold_left (parse_arg parseInt p) args0 r2).
Proof.
  induction args0 as [|a args0 IH]; intros r1 r2 H; [exact H|].
  cbn. apply IH. now apply parse_arg_agree.
Qed.

(** X17.  When two arguments name the same option, the earlier one has
    no effect on the result, wherever the two stand in the command
    line: the later one wins. *)
Theorem later_argument_wins (p : ArgParser) (l1 l2 l3 : list string) (a1 a2 : string) :
  arg_key p a1 = arg_key p a2 ->
  parse parseInt p (l1 ++ a1 :: l2 ++ a2 :: l3)
  = parse parseInt p (l1 ++ l2 ++ a2 :: l3).
Proof.
  intros Hk. unfold parse. rewrite !fold_left_app. cbn [fold_left].
  rewrite !fold_left_app. cbn [fold_left]. f_equal.
  set (r := fold_left (parse_arg parseInt p) l1 (set_defaults (definitions p))).
  destruct (Map_get (arg_key p a2) (definitions p)) as [def|] eqn:Ed.
  - apply parse_arg_settles; [|now rewrite Ed].
    apply fold_parse_agree. rewrite parse_arg_insert, Hk, Ed.
    apply delete_insert_eq.
  - now rewrite (parse_arg_insert p r a1), Hk, Ed.
Qed.

(** X18.  An option that no argument names keeps what the defaults
    give it: its default when it has one, nothing otherwise. *)
Theorem unnamed_option_default (p : ArgParser) (argv : list string) (k : string) :
  Forall (fun arg => arg_key p arg <> k) argv ->
  parse parseInt p argv !! k = set_defaults (definitions p) !! k.
Proof.
  unfold parse. generalize (set_defaults (definitions p)).
  induction argv as [|a argv IH]; intros r Hall; [reflexivity|].
  inversion Hall as [|? ? Ha Hrest]; subst. cbn [fold_left].
  rewrite (IH _ Hrest), parse_arg_insert.
  destruct (Map_get (arg_key p a) (definitions p)); [|reflexivity].
  now apply lookup_insert_ne.
Qed.

End ParserFacts.

Lemma later_argument_wins_witness :
  parse sample_parseInt parser
    ["--fps=60"; "-t=9"; "junk"; "-h"; "--trail=12"; "--seed=1"]%string
  = parse sample_parseInt parser
      ["--fps=60"; "junk"; "-h"; "--trail=12"; "--seed=1"]%string.
Proof.
  exact (later_argument_wins sample_parseInt parser
           ["--fps=60"]%string ["junk"; "-h"]%string ["--seed=1"]%string
           "-t=9"%string "--trail=12"%string eq_refl).
Defined.

Lemma unnamed_option_default_witness :
  parse sample_parseInt parser ["--seed=7"; "-t=9"; "--frames=3"]%string !! "fps"%string
  = Some (VNumber (Some 30)).
Proof.
  apply (unnamed_option_default sample_parseInt parser
           ["--seed=7"; "-t=9"; "--frames=3"]%string).
  repeat constructor; discriminate.
Defined.

(** ** The program's options *)

Lemma substring_all s : String.substring 0 (String.length s) s = s.
Proof. induction s as [|c s IH]; [reflexivity|]. cbn. now rewrite IH. Qed.

Lemma split_arg_hit s : split_arg (String "=" s) = (EmptyString, Some s).
Proof.
  unfold split_arg. cbn [String.index String.prefix].
  destruct (ascii_dec "=" "=") as [_|Hne]; [|congruence].
  assert (Hp : String.prefix EmptyString s = true) by (destruct s; reflexivity).
  rewrite Hp. cbn. now rewrite Nat.sub_0_r, substring_all.
Qed.

Lemma split_arg_skip c s :
  c <> "="%char ->
  split_arg (String c s) = (String c (fst (split_arg s)), snd (split_arg s)).
Proof.
  intros Hc. unfold split_arg. cbn [String.index String.prefix].
  destruct (ascii_dec "=" c) as [E|_]; [congruence|].
  destruct (String.index 0 "=" s) as [n|]; reflexivity.
Qed.

(** Reads the key and the value of an argument whose text is known up
    to its value. *)
Ltac read_arg :=
  unfold arg_key; cbv [String.append fst snd];
  repeat first [ rewrite split_arg_hit | rewrite split_arg_skip by discriminate ];
  cbv [fst snd]; try reflexivity.

Section ProgramOptions.

Variable parseInt : string -> option Z.

(** An argument matters only through the option it names and the
    value it carries. *)
Lemma parse_arg_reading p (r : ParsedArgs) a b :
  arg_key p a = arg_key p b -> snd (split_arg a) = snd (split_arg b) ->
  parse_arg parseInt p r a = parse_arg parseInt p r b.
Proof. intros Hk Hv. now rewrite !parse_arg_insert, Hk, Hv. Qed.

(** X19.  Each option of the program can be spelled with its short or
    its long name and with no, one or two leading dashes, with or
    without a value: all spellings have the same effect as the
    documented [--name] form. *)
Theorem spellings_agree (r : ParsedArgs) (v : string) :
  Forall (fun names : string * string =>
    Forall (fun d : string =>
      parse_arg parseInt parser r (d ++ fst names ++ "=" ++ v)
      = parse_arg parseInt parser r ("--" ++ snd names ++ "=" ++ v)
      /\ parse_arg parseInt parser r (d ++ snd names ++ "=" ++ v)
         = parse_arg parseInt parser r ("--" ++ snd names ++ "=" ++ v)
      /\ parse_arg parseInt parser r (d ++ fst names)
         = parse_arg parseInt parser r ("--" ++ snd names)
      /\ parse_arg parseInt parser r (d ++ snd names)
         = parse_arg parseInt parser r ("--" ++ snd names))%string
      dash_prefixes) option_names.
Proof.
  unfold option_names, dash_prefixes.
  repeat (apply Forall_cons_2 || apply Forall_nil_2);
    (split; [|split; [|split]]); apply parse_arg_reading; read_arg.
Qed.

(** The program's parser on an argument that names one of its options. *)
Lemma parse_arg_fps (r : ParsedArgs) v :
  parse_arg parseInt parser r ("--fps=" ++ v) = <["fps"%string := VNumber (parseInt v)]> r.
Proof.
  rewrite parse_arg_insert.
  assert (Hk : arg_key parser ("--fps=" ++ v) = "fps"%string) by read_arg.
  assert (Hv : snd (split_arg ("--fps=" ++ v)) = Some v) by read_arg.
  rewrite Hk, Hv. reflexivity.
Qed.

Lemma parse_arg_trail (r : ParsedArgs) v :
  parse_arg parseInt parser r ("--trail=" ++ v) = <["trail"%string := VNumber (parseInt v)]> r.
Proof.
  rewrite parse_arg_insert.
  assert (Hk : arg_key parser ("--trail=" ++ v) = "trail"%string) by read_arg.
  assert (Hv : snd (split_arg ("--trail=" ++ v)) = Some v) by read_arg.
  rewrite Hk, Hv. reflexivity.
Qed.

Lemma parse_arg_seed (r : ParsedArgs) v :
  parse_arg parseInt parser r ("--seed=" ++ v) = <["seed"%string := VNumber (parseInt v)]> r.
Proof.
  rewrite parse_arg_insert.
  assert (Hk : arg_key parser ("--seed=" ++ v) = "seed"%string) by read_arg.
  assert (Hv : snd (split_arg ("--seed=" ++ v)) = Some v) by read_arg.
  rewrite Hk, Hv. reflexivity.
Qed.

Lemma parse_snoc p argv a :
  parse parseInt p (argv ++ [a]) = parse_arg parseInt p (parse parseInt p argv) a.
Proof. unfold parse. now rewrite fold_left_app. Qed.

(** X20.  When the last argument is [--fps=v] or [--trail=v], the
    frame rate or trail length the engine runs with is the integer read
    from [v], unless that is [NaN] or 0, in which case it is 30 or 20;
    the rest of the command line does not matter. *)
Theorem numeric_option_fallback (argv : list string) (v : string) :
  target_fps (args_of (parse parseInt parser (argv ++ ["--fps=" ++ v]%string)))
  = match parseInt v with Some n => if n =? 0 then 30 else n | None => 30 end
  /\ trail_length (args_of (parse parseInt parser (argv ++ ["--trail=" ++ v]%string)))
     = match parseInt v with Some n => if n =? 0 then 20 else n | None => 20 end.
Proof.
  rewrite !parse_snoc, parse_arg_fps, parse_arg_trail.
  unfold target_fps, trail_length, args_of, as_number. cbn [fps trail].
  rewrite !lookup_insert_eq. now destruct (parseInt v).
Qed.

(** X21.  A last argument [--seed=v] selects the seeded generator,
    started from the integer read from [v], or from 0 when [v] does not
    parse; a bare [--seed] leaves the program on the host's random
    source, as if no seed had been given. *)
Theorem seed_option_reading (argv : list string) (v : string) (host : nat -> Q) :
  make_random (seed (args_of (parse parseInt parser (argv ++ ["--seed=" ++ v]%string)))) host
  = mulberry32 (match parseInt v with Some n => n | None => 0 end)
  /\ make_random (seed (args_of (parse parseInt parser (argv ++ ["--seed"%string])))) host
     = HostRandom host 0.
Proof.
  split.
  - rewrite parse_snoc, parse_arg_seed. unfold args_of, as_number. cbn [seed].
    rewrite lookup_insert_eq. now destruct (parseInt v).
  - rewrite parse_snoc, parse_arg_insert.
    assert (Hk : arg_key parser "--seed" = "seed"%string) by reflexivity.
    assert (Hv : snd (split_arg "--seed") = None) by reflexivity.
    rewrite Hk, Hv. cbn [Map_get definitions parser]. unfold args_of, as_number. cbn [seed].
    change (Map_get "seed"%string (definitions parser)) with
      (Some {| name := "seed"; alias := Some "s"%string; type := TNumber;
               default := VUndefined;
               description := "Seed for reproducible randomness" |}).
    unfold arg_value. cbn [type default]. rewrite lookup_insert_eq. reflexivity.
Qed.

Lemma last_trail (argv : list string) (v : string) :
  trail (args_of (parse parseInt parser (argv ++ ["--trail=" ++ v]%string))) = parseInt v.
Proof.
  rewrite parse_snoc, parse_arg_trail. unfold args_of, as_number. cbn [trail].
  now rewrite lookup_insert_eq.
Qed.

Lemma last_trail_help (argv : list string) (v : string) :
  wants_help (parse parseInt parser (argv ++ ["--trail=" ++ v]%string))
  = wants_help (parse parseInt parser argv).
Proof.
  rewrite parse_snoc, parse_arg_trail. unfold wants_help.
  now rewrite lookup_insert_ne by discriminate.
Qed.

(** X22.  A negative trail length given as the last argument is not
    rejected by the parser.  Unless the arguments ask for help, in
    which case the program exits with code 0 before anything else, it
    makes the program fail while loading, before the engine exists and
    before anything is written. *)
Theorem negative_trail_fails (argv : list string) (v : string) (n : Z)
  (host : nat -> Q) (columns rows : option Z) :
  parseInt v = Some n -> n < 0 ->
  program parseInt (argv ++ ["--trail=" ++ v]%string) host columns rows
  = if wants_help (parse parseInt parser argv) then HelpExit 0 else LoadFailed.
Proof.
  intros Hv Hn. unfold program. rewrite last_trail_help.
  destruct (wants_help (parse parseInt parser argv)); [reflexivity|].
  unfold main, trail_length. rewrite last_trail, Hv.
  unfold JS.or_default. destruct (Z.eqb_spec n 0) as [|_]; [lia|].
  unfold array_length_ok. destruct (Z.leb_spec 0 n); [lia|]. reflexivity.
Qed.

End ProgramOptions.

Lemma negative_trail_fails_witness :
  program sample_parseInt ["--seed=42"; "--trail=-5"]%string (fun _ => 0%Q) (Some 80) (Some 24)
  = LoadFailed
  /\ program sample_parseInt ["-h"; "--trail=-5"]%string (fun _ => 0%Q) (Some 80) (Some 24)
     = HelpExit 0.
Proof.
  split.
  - exact (negative_trail_fails sample_parseInt ["--seed=42"%string] "-5"%string (-5)
             (fun _ => 0%Q) (Some 80) (Some 24) eq_refl ltac:(lia)).
  - exact (negative_trail_fails sample_parseInt ["-h"%string] "-5"%string (-5)
             (fun _ => 0%Q) (Some 80) (Some 24) eq_refl ltac:(lia)).
Defined.

(** Closes a [well_typed] goal for a result with one more entry. *)
Ltac typed_insert H :=
  destruct H as (Hs & Hf & Ht & Hh & Ho);
  unfold well_typed;
  rewrite ?lookup_insert_eq, ?lookup_insert_ne by discriminate;
  repeat split; eauto;
  intros k ? ? ? ?; rewrite lookup_insert_ne by congruence; now apply Ho.

(** X23.  Whatever the command line, the parsed result holds a number
    under [fps] and under [trail], a boolean under [help], a number or
    nothing under [seed], and no other key: the program's casts of
    these entries are sound, and arguments that name no option leave no
    trace. *)
Theorem parsed_args_typed (parseInt : string -> option Z) (argv : list string) :
  well_typed (parse parseInt parser argv).
Proof.
  unfold parse.
  assert (H0 : well_typed (set_defaults (definitions parser))).
  { change (set_defaults (definitions parser))
      with (<["help"%string := VBoolean false]>
              (<["trail"%string := VNumber (Some 20)]>
                 (<["fps"%string := VNumber (Some 30)]> (∅ : gmap string Value)))).
    unfold well_typed.
    rewrite ?lookup_insert_eq, ?lookup_insert_ne by discriminate.
    repeat split; eauto.
    intros k ? ? ? ?. rewrite !lookup_insert_ne by congruence. apply lookup_empty. }
  revert H0. generalize (set_defaults (definitions parser)).
  induction argv as [|a argv IH]; intros r Hr; [exact Hr|].
  cbn [fold_left]. apply IH. rewrite parse_arg_insert.
  change (definitions parser) with
    [("seed"%string, {| name := "seed"; alias := Some "s"%string; type := TNumber;
                        default := VUndefined;
                        description := "Seed for reproducible randomness" |});
     ("fps"%string, {| name := "fps"; alias := Some "f"%string; type := TNumber;
                       default := VNumber (Some 30);
                       description := "Target frames per second" |});
     ("trail"%string, {| name := "trail"; alias := Some "t"%string; type := TNumber;
                         default := VNumber (Some 20); description := "Trail length" |});
     ("help"%string, {| name := "help"; alias := Some "h"%string; type := TBoolean;
                        default := VBoolean false;
                        description := "Show this help message" |})].
  cbn [Map_get].
  destruct (String.eqb_spec "seed" (arg_key parser a)) as [<-|_].
  { unfold arg_value. cbn [type default]. destruct (snd (split_arg a)); typed_insert Hr. }
  destruct (String.eqb_spec "fps" (arg_key parser a)) as [<-|_].
  { unfold arg_value. cbn [type default]. destruct (snd (split_arg a)); typed_insert Hr. }
  destruct (String.eqb_spec "trail" (arg_key parser a)) as [<-|_].
  { unfold arg_value. cbn [type default]. destruct (snd (split_arg a)); typed_insert Hr. }
  destruct (String.eqb_spec "help" (arg_key parser a)) as [<-|_].
  { unfold arg_value. cbn [type default]. destruct (snd (split_arg a)); typed_insert Hr. }
  exact Hr.
Qed.

(** ** The advance step within a pass *)

Lemma render_columns_app L h now xs1 : forall xs2 (ds : list Drop) g,
  render_columns L h now (xs1 ++ xs2) ds g
  = match render_columns L h now xs1 ds g with
    | (Some (ds1, o1), g1) =>
        match render_columns L h now xs2 ds1 g1 with
        | (Some (ds2, o2), g2) => (Some (ds2, o1 ++ o2), g2)
        | (None, g2) => (None, g2)
        end
    | (None, g1) => (None, g1)
    end.
Proof.
  induction xs1 as [|x xs1 IH]; intros xs2 ds g.
  - cbn. destruct (render_columns L h now xs2 ds g) as [[[ds2 o2]|] g2]; reflexivity.
  - cbn [app render_columns]. destruct (ds !! x) as [d|]; [|reflexivity].
    unfold bind, ret.
    destruct (render_column L h now x d g) as [[d2 o] g1]. cbn [fst snd].
    rewrite IH.
    destruct (render_columns L h now xs1 (<[x:=d2]> ds) g1) as [[[ds1 o1]|] g2];
      [|reflexivity].
    destruct (render_columns L h now xs2 ds1 g2) as [[[ds2 o2]|] g3]; [|reflexivity].
    now rewrite app_assoc.
Qed.

Lemma advance_unit L h now col d g :
  unit_source g -> unit_source (snd (advance L h now col d g)).
Proof.
  intros Hg. unfold advance, bind, ret.
  destruct (Qle_bool (nextUpdate d) now); [|exact Hg].
  destruct (random_unit g Hg) as (_ & _ & Hg1).
  destruct (random g) as [r g1]. cbn [snd] in Hg1.
  destruct (Qltb r (3 # 10)); [|exact Hg1].
  destruct (random_unit g1 Hg1) as (_ & _ & Hg2).
  destruct (random g1) as [s g2]. cbn [snd] in Hg2.
  destruct (randomChar_range g2 Hg2) as [_ Hg3].
  destruct (randomChar g2) as [c g3]. exact Hg3.
Qed.

Lemma render_column_unit L h now x d g :
  unit_source g -> unit_source (snd (render_column L h now x d g)).
Proof.
  intros Hg. unfold render_column, bind, ret.
  pose proof (advance_unit L h now (Z.of_nat x + 1) d g Hg) as Hg1.
  destruct (advance L h now (Z.of_nat x + 1) d g) as [[d1 o1] g1]. cbn [fst snd] in *.
  assert (Hg2 : unit_source (snd (recycle L h d1 g1))).
  { unfold recycle. destruct (recycle_due L h d1); [|exact Hg1].
    rewrite createDrop_skip. now apply skip_unit. }
  destruct (recycle L h d1 g1) as [d2 g2]. cbn [snd] in Hg2.
  pose proof (draw_unit L h (Z.of_nat x + 1) d2 (seq 0 (Z.to_nat L)) g2 Hg2) as Hg3.
  destruct (draw L h (Z.of_nat x + 1) d2 (seq 0 (Z.to_nat L)) g2) as [cells g3].
  exact Hg3.
Qed.

Lemma render_columns_unit L h now xs : forall (ds : list Drop) g r g',
  unit_source g -> render_columns L h now xs ds g = (r, g') -> unit_source g'.
Proof.
  induction xs as [|x xs IH]; intros ds g r g' Hg H.
  - cbn in H. injection H as _ <-. exact Hg.
  - cbn [render_columns] in H. destruct (ds !! x) as [d|].
    + unfold bind, ret in H.
      pose proof (render_column_unit L h now x d g Hg) as Hg1.
      destruct (render_column L h now x d g) as [[d2 o] g1]. cbn [fst snd] in *.
      destruct (render_columns L h now xs (<[x:=d2]> ds) g1) as [r1 g2] eqn:Er.
      assert (g2 = g') as <- by (destruct r1 as [[? ?]|]; congruence).
      exact (IH _ _ _ _ Hg1 Er).
    + injection H as _ <-. exact Hg.
Qed.

(** The write and the drop of one column, in terms of its three steps. *)
Lemma render_column_steps L h now x d g :
  let col := Z.of_nat x + 1 in
  let a := advance L h now col d g in
  let kept := recycle L h (fst (fst a)) (snd a) in
  render_column L h now x d g
  = (fst kept,
     snd (fst a) ++ fst (draw L h col (fst kept) (seq 0 (Z.to_nat L)) (snd kept)),
     snd (draw L h col (fst kept) (seq 0 (Z.to_nat L)) (snd kept))).
Proof.
  cbv zeta. unfold render_column, bind, ret.
  destruct (advance L h now (Z.of_nat x + 1) d g) as [[d1 o1] g1]. cbn [fst snd].
  destruct (recycle L h d1 g1) as [d2 g2]. cbn [fst snd].
  destruct (draw L h (Z.of_nat x + 1) d2 (seq 0 (Z.to_nat L)) g2) as [cells g3].
  reflexivity.
Qed.

(** Where column [x] stands in a pass over [w] columns: after the
    columns before it, which leave its slot alone, and before the
    columns after it, which leave its new drop alone. *)
Lemma render_columns_at L h now (w x : nat) (ds : list Drop) (d : Drop) g :
  length ds = w -> ds !! x = Some d ->
  exists ds1 before gx ds' after g',
    render_columns L h now (seq 0 x) ds g = (Some (ds1, before), gx)
    /\ render_columns L h now (seq 0 w) ds g
       = (Some (ds', before ++ snd (fst (render_column L h now x d gx)) ++ after), g')
    /\ ds' !! x = Some (fst (fst (render_column L h now x d gx))).
Proof.
  intros Hw Hd. pose proof (lookup_lt_Some _ _ _ Hd) as Hx.
  assert (Hs : seq 0 w = seq 0 x ++ x :: seq (S x) (w - S x)).
  { replace w with (x + S (w - S x))%nat at 1 by lia. now rewrite seq_app. }
  rewrite Hs, render_columns_app.
  destruct (render_columns_seq L h now x 0%nat ds g ltac:(lia))
    as (ds1 & before & gx & Hr1 & Hl1 & Hk1 & _).
  rewrite Hr1. cbn [render_columns Nat.add].
  rewrite (Hk1 x ltac:(lia)), Hd. unfold bind, ret.
  destruct (render_column L h now x d gx) as [[d2 o] g1] eqn:Ec. cbn [fst snd].
  destruct (render_columns_seq L h now (w - S x) (S x) (<[x:=d2]> ds1) g1)
    as (ds' & after & g' & Hr2 & _ & Hk2 & _); [rewrite length_insert; lia|].
  rewrite Hr2. exists ds1, before, gx, ds', after, g'. rewrite Ec. cbn [fst snd].
  split; [reflexivity|]. split; [reflexivity|].
  rewrite (Hk2 x ltac:(lia)). apply list_lookup_insert_eq. lia.
Qed.

(** C4.  In every render pass over an engine with one drop per column,
    each column is visited, after the columns before it, and what the
    advance step does there is part of the pass: its erase goes into
    the single write of the frame, ahead of the column's cells, and the
    drop it yields is the one tested for recycling.  For a drop that is
    due ([now >= nextUpdate]) the step erases the cell at row
    [y - TRAIL_LENGTH] when that row is on screen, moves the drop down
    by exactly one row and makes it next due at [now + 100 / speed];
    when the following draw of the generator is below 0.3, the slot
    [floor(random * TRAIL_LENGTH)] of its glyph buffer receives the glyph
    [floor(random * CHAR_LEN)], and otherwise the buffer is kept.  For a
    drop that is not due the step leaves the drop as it is, writes
    nothing and does not use the generator. *)
Theorem advance_in_pass (L : Z) (now : Q) (e : Engine) (g : RandomFn) :
  0 < L <= 2147483648 ->
  length (drops e) = Z.to_nat (width e) ->
  Forall (fun d => -2147483648 <= y d < 2147483648) (drops e) ->
  unit_source g ->
  exists e' out g',
    render L now e g = (Some (e', out), g')
    /\ forall (x : nat) (d : Drop), drops e !! x = Some d ->
       exists ds before gx after,
         render_columns L (height e) now (seq 0 x) (drops e) g = (Some (ds, before), gx)
         /\ let col := Z.of_nat x + 1 in
            let res := advance L (height e) now col d gx in
            let d' := fst (fst res) in
            let erased := snd (fst res) in
            let kept := recycle L (height e) d' (snd res) in
            let cells := fst (draw L (height e) col (fst kept)
                                (seq 0 (Z.to_nat L)) (snd kept)) in
            out = before ++ (erased ++ cells) ++ after
            /\ drops e' !! x = Some (fst kept)
            /\ ((nextUpdate d <= now)%Q ->
                  erased = (if (1 <=? y d - L) && (y d - L <=? height e)
                            then [moveTo (y d - L) col; Space] else [])
                  /\ y d' = y d + 1
                  /\ speed d' = speed d
                  /\ nextUpdate d' = (now + 100 / speed d)%Q
                  /\ let r := fst (random gx) in
                     let g1 := snd (random gx) in
                     let slot := Qfloor (fst (random g1) * inject_Z L) in
                     let c := Qfloor (fst (random (snd (random g1)))
                                      * inject_Z CHAR_LEN) in
                     ((r < 3 # 10)%Q ->
                        0 <= slot < L /\ 0 <= c < CHAR_LEN
                        /\ chars d' = <[Z.to_nat slot := c]> (chars d)
                        /\ snd res = snd (random (snd (random g1))))
                     /\ ((3 # 10 <= r)%Q -> chars d' = chars d /\ snd res = g1))
            /\ ((now < nextUpdate d)%Q -> d' = d /\ erased = [] /\ snd res = gx).
Proof.
  intros HL Hlen Hys Hg.
  destruct (render_well_formed L now e g Hlen) as (e' & out & g' & Hr & _).
  exists e', out, g'. split; [exact Hr|].
  intros x d Hd.
  destruct (render_columns_at L (height e) now (Z.to_nat (width e)) x (drops e) d g
              Hlen Hd) as (ds & before & gx & ds' & after & g2 & Hpre & Hall & Hslot).
  exists ds, before, gx, after. split; [exact Hpre|]. cbv zeta.
  unfold render, bind, ret in Hr. rewrite Hall in Hr. injection Hr as <- <- _.
  cbn [drops]. rewrite render_column_steps in Hslot. cbv zeta in Hslot. cbn [fst snd] in Hslot.
  rewrite (render_column_steps L (height e) now x d gx). cbv zeta. cbn [fst snd].
  split; [reflexivity|]. split; [exact Hslot|].
  assert (Hy : -2147483648 <= y d < 2147483648).
  { rewrite Forall_forall in Hys. apply Hys. eapply list_elem_of_lookup_2. exact Hd. }
  pose proof (render_columns_unit _ _ _ _ _ _ _ _ Hg Hpre) as Hgx.
  exact (advance_spec L (height e) now (Z.of_nat x + 1) d gx Hy HL Hgx).
Qed.

Lemma advance_in_pass_witness :
  exists e' out g',
    render 3 40 wide_engine (mulberry32 42) = (Some (e', out), g')
    /\ firstn 2 out = [moveTo 5 1; Space]
    /\ option_map y (drops e' !! 1%nat) = Some 0.
Proof.
  destruct (advance_in_pass 3 40 wide_engine (mulberry32 42))
    as (e' & out & g' & Hr & _).
  - lia.
  - reflexivity.
  - unfold wide_engine. cbn [drops].
    repeat (apply Forall_cons_2 || apply Forall_nil_2); cbn; lia.
  - exact I.
  - exists e', out, g'. split; [exact Hr|].
    vm_compute in Hr. injection Hr as <- <- _. split; reflexivity.
Defined.
